(** * TopoNetX atoms: [Simplex] and [Cell]

    A shallow embedding of [toponetx/classes/simplex.py] and
    [toponetx/classes/cell.py], and the properties of the two classes.

    Nodes are arbitrary hashable Python objects; they are modelled by a
    countable type with decidable equality, Python's [==] on nodes being
    equality of the model.  A [frozenset] of nodes is a [gset node], a
    [Counter] a [gmultiset node], a [dict] keyed by nodes a [gmap].
    Ordered collections (tuple, list, deque) are lists.

    Methods that may raise return an [outcome]; those that create objects
    run in the monad [M], which threads the supply of object identities.
    Arguments whose Python type decides what a method does (a list or a
    tuple, an iterable or not) are small inductive types, one per
    method. *)

From Stdlib Require Import ZArith Lia.
From stdpp Require Import gmap gmultiset strings list.

Local Open Scope Z_scope.
Local Open Scope nat_scope.
#[local] Set Warnings "-clear-no-such-hyp".

(** ** The Python run time the two classes rely on *)

(** The exceptions the two files raise, by Python class. *)
Inductive exn : Type :=
  | ValueError
  | TypeError
  | KeyError
  | IndexError.

(** What evaluating an expression gives: a value, or a raised exception. *)
Inductive outcome (A : Type) : Type :=
  | Ret (a : A)
  | Raise (e : exn).
Arguments Ret {A} a.
Arguments Raise {A} e.

Global Instance outcome_ret : MRet outcome := @Ret.
Global Instance outcome_bind : MBind outcome := λ A B f m,
  match m with
  | Ret a => f a
  | Raise e => Raise e
  end.

(** Instances of a class that defines neither [__eq__] nor [__hash__] are
    compared and hashed by identity.  The heap is abstracted to the
    supply of identities: [alloc] hands out the next one, and no identity
    is handed out twice, so two objects that are alive together never
    share one. *)
Definition heap : Type := nat.

Definition M (A : Type) : Type := heap → outcome A * heap.

Global Instance M_ret : MRet M := λ A a h, (Ret a, h).
Global Instance M_bind : MBind M := λ A B f m h,
  match m h with
  | (Ret a, h') => f a h'
  | (Raise e, h') => (Raise e, h')
  end.

Definition raise {A} (e : exn) : M A := λ h, (Raise e, h).

Definition lift {A} (o : outcome A) : M A := λ h, (o, h).

Definition alloc : M nat := λ h, (Ret h, S h).

(** A [for] loop that threads an accumulator and stops at the first
    exception. *)
Fixpoint foldM {A B} (f : B → A → M B) (acc : B) (l : list A) : M B :=
  match l with
  | [] => mret acc
  | x :: l' => acc' ← f acc x; foldM f acc' l'
  end.

(** [seq[0]]: the first item, [IndexError] on an empty sequence. *)
Definition index0 {A} (l : list A) : outcome A :=
  match l with
  | [] => Raise IndexError
  | x :: _ => Ret x
  end.

(** [itertools.zip_longest]: pairs positions, filling the shorter side with
    [None]. *)
Fixpoint zip_longest {A B} (xs : list A) (ys : list B)
    : list (option A * option B) :=
  match xs, ys with
  | [], _ => (λ y, (None, Some y)) <$> ys
  | _, [] => (λ x, (Some x, None)) <$> xs
  | x :: xs', y :: ys' => (Some x, Some y) :: zip_longest xs' ys'
  end.

(** [deque.rotate()]: one step to the right, the last item becomes the
    first. *)
Definition deque_rotate {A} (d : list A) : list A :=
  match last d with
  | Some x => x :: removelast d
  | None => []
  end.

(** [range(n, 0, -1)]: n, n-1, ..., 1. *)
Definition range_down (n : nat) : list nat := reverse (seq 1 n).

(** [itertools.combinations(l, r)]: the r-length subsequences of [l], in
    lexicographic order of positions. *)
Fixpoint combinations {A} (l : list A) (r : nat) : list (list A) :=
  match r, l with
  | 0, _ => [[]]
  | S _, [] => []
  | S r', x :: l' => (cons x <$> combinations l' r') ++ combinations l' r
  end.

(** The number of subsequences of [l] of a length below [m]. *)
Fixpoint count_below {A} (l : list A) (m : nat) : nat :=
  match m with
  | 0 => 0
  | S m' => count_below l m' + length (combinations l m')
  end.

(** ** Cell *)

Module Cell.
Section defs.
Context `{Countable node} {value : Type}.

(** Modelled from the spec: the [Atom] base class of
    [toponetx/classes/complex.py], which is not part of the sources at
    hand.  An atom holds its node collection, a display name and a
    property map filled from the keyword arguments; its length is the
    number of its elements. *)
Record Atom : Type := mkAtom {
  atom_elements : list node;
  atom_name : string;
  atom_properties : gmap string value
}.

(** Modelled from the spec: [Atom.__init__(elements, name, **attr)]. *)
Definition Atom_init (elements : list node) (name : string)
    (attr : gmap string value) : Atom :=
  mkAtom elements name attr.

(** A [Cell] instance: its identity, the [Atom] part, and the two
    attributes [Cell.__init__] sets. *)
Record t : Type := mk {
  oid : nat;
  base : Atom;
  _regular : bool;
  _boundary : list (node * node)
}.

Definition elements (self : t) : list node := atom_elements (base self).
Definition name (self : t) : string := atom_name (base self).
Definition _properties (self : t) : gmap string value :=
  atom_properties (base self).

(** Modelled from the spec: [Atom.__len__]. *)
Definition len (self : t) : nat := length (elements self).

(** [elements[1:] + [elements[0]]]: every element's cyclic successor.
    [elements[0]] is evaluated here, before any length check. *)
Definition successors (elements : list node) : outcome (list node) :=
  first ← index0 elements; Ret (tail elements ++ [first]).

(** [list(zip_longest(elements, elements[1:] + [elements[0]]))].  The two
    lists have the same length (see [zip_longest_successors]), so no pair
    is padded and the edges are plain pairs of nodes. *)
Definition boundary_of (elements : list node)
    : outcome (list (node * node)) :=
  succ ← successors elements; Ret (zip elements succ).

(** The [regular] branch of [__init__]: each edge's source is recorded in
    [_adjdict]; a source met twice raises. *)
Fixpoint check_regular (_adjdict : gmap node node)
    (edges : list (node * node)) : outcome () :=
  match edges with
  | [] => Ret ()
  | e :: rest =>
      if decide (e.1 ∈ dom _adjdict) then Raise ValueError
      else check_regular (<[e.1 := e.2]> _adjdict) rest
  end.

(** The other branch of [__init__]: an edge from a node to itself
    raises. *)
Fixpoint check_no_self_loop (edges : list (node * node)) : outcome () :=
  match edges with
  | [] => Ret ()
  | e :: rest =>
      if decide (e.1 = e.2) then Raise ValueError
      else check_no_self_loop rest
  end.

(** [Cell.__init__(self, elements, name, regular, **attr)], together with
    the allocation of [self].  [elements] is the content of the
    collection in iteration order. *)
Definition init (elements : list node) (name : string) (regular : bool)
    (attr : gmap string value) : M t :=
  self ← alloc;
  let base := Atom_init elements name attr in
  _boundary ← lift (boundary_of elements);
  if bool_decide (length elements ≤ 1) then raise ValueError
  else
    _ ← lift (if regular then check_regular ∅ _boundary
              else check_no_self_loop _boundary);
    mret (mk self base regular _boundary).

(** [Cell.clone]: [Cell(self.elements, self.name, self._regular,
    **self._properties)].  The stored properties are the keyword arguments
    of the construction, so none of them clashes with a parameter name
    when they are passed on. *)
Definition clone (self : t) : M t :=
  init (elements self) (name self) (_regular self) (_properties self).

(** What [is_valid_cell] receives: a list or a tuple. *)
Inductive sequence : Type :=
  | PyList (items : list node)
  | PyTuple (items : list node).

Definition items_of (s : sequence) : list node :=
  match s with PyList l | PyTuple l => l end.

(** [elements[1:] + [elements[0]]] on the sequence as it was passed:
    a slice of a tuple is a tuple, and adding a list to it is a
    [TypeError]. *)
Definition successors_seq (elements : sequence) : outcome (list node) :=
  first ← index0 (items_of elements);
  match elements with
  | PyList l => Ret (tail l ++ [first])
  | PyTuple _ => Raise TypeError
  end.

(** The two loops again, as [is_valid_cell] and [is_regular] write them:
    [return False] where [__init__] raises. *)
Fixpoint valid_regular (_adjdict : gmap node node)
    (edges : list (node * node)) : bool :=
  match edges with
  | [] => true
  | e :: rest =>
      if decide (e.1 ∈ dom _adjdict) then false
      else valid_regular (<[e.1 := e.2]> _adjdict) rest
  end.

Fixpoint valid_no_self_loop (edges : list (node * node)) : bool :=
  match edges with
  | [] => true
  | e :: rest =>
      if decide (e.1 = e.2) then false else valid_no_self_loop rest
  end.

(** [Cell.is_valid_cell(elements, regular)] (a static method). *)
Definition is_valid_cell (elements : sequence) (regular : bool)
    : outcome bool :=
  succ ← successors_seq elements;
  let _boundary := zip (items_of elements) succ in
  if bool_decide (length (items_of elements) ≤ 1) then Ret false
  else if regular then Ret (valid_regular ∅ _boundary)
  else Ret (valid_no_self_loop _boundary).

(** [Cell.is_regular] (a property). *)
Definition is_regular (self : t) : bool :=
  if _regular self then true else valid_regular ∅ (_boundary self).

(** [Cell.boundary] (a property): a fresh iterator over [_boundary]. *)
Definition boundary (self : t) : list (node * node) := _boundary self.

(** What [sign] may receive: an object that is not iterable, an iterable
    without [len] (a generator), or a sized iterable seen through its
    items. *)
Inductive edge_arg : Type :=
  | NotIterable
  | Unsized
  | Items (items : list node).

(** [Cell.sign(self, edge)].  [len(edge)] is itself a [TypeError] on an
    iterable without length; [tuple(edge)] has two items exactly when
    [len(edge) == 2]; [t in self.boundary] scans the edges with [==]. *)
Definition sign (self : t) (edge : edge_arg) : outcome Z :=
  match edge with
  | NotIterable => Raise TypeError
  | Unsized => Raise TypeError
  | Items [a; b] =>
      if bool_decide ((a, b) ∈ boundary self) then Ret 1%Z
      else if bool_decide ((b, a) ∈ boundary self) then Ret (-1)%Z
      else Raise KeyError
  | Items _ => Raise ValueError
  end.

(** [Cell.reverse]: [Cell(self.elements[::-1], name=self.name,
    regular=self._regular, **self._properties)]. *)
Definition reverse (self : t) : M t :=
  init (reverse (elements self)) (name self) (_regular self) (_properties self).

(** What [is_homotopic_to] may receive. *)
Inductive cell_arg : Type :=
  | ArgTuple (items : list node)
  | ArgList (items : list node)
  | ArgCell (c : t)
  | ArgOther.

Definition seq_of (cell : cell_arg) : outcome (list node) :=
  match cell with
  | ArgTuple l | ArgList l => Ret l
  | ArgCell c => Ret (elements c)
  | ArgOther => Raise TypeError
  end.

(** [collections.Counter(seq)]: the multiset of the items. *)
Definition Counter (seq : list node) : gmultiset node :=
  list_to_set_disj seq.

(** The loop of [_are_homotopic]: [n] times, rotate [deq2] one step and
    compare it with [deq1]. *)
Fixpoint rotate_search (n : nat) (deq1 deq2 : list node) : bool :=
  match n with
  | 0 => false
  | S n' =>
      let deq2' := deque_rotate deq2 in
      if bool_decide (deq1 = deq2') then true
      else rotate_search n' deq1 deq2'
  end.

(** [Cell._are_homotopic(cell1, cell)].  [len(cell)] is the length of
    [seq] in each of the three accepted cases. *)
Definition _are_homotopic (cell1 : t) (cell : cell_arg) : outcome bool :=
  seq ← seq_of cell;
  if bool_decide (len cell1 ≠ length seq) then Ret false
  else
    let mset1 := Counter seq in
    let mset2 := Counter (elements cell1) in
    if bool_decide (mset1 ≠ mset2) then Ret false
    else Ret (rotate_search (length seq) (elements cell1) seq).

(** [Cell.is_homotopic_to(self, cell)]; [or] evaluates its right operand
    only when the left one is false. *)
Definition is_homotopic_to (self : t) (cell : cell_arg) : M bool :=
  direct ← lift (_are_homotopic self cell);
  if (direct : bool) then mret true
  else
    reversed ← reverse self;
    lift (_are_homotopic reversed cell).

(** The scenario [Cell(xs).is_homotopic_to(Cell(ys))], both cells built
    with the defaults. *)
Definition homotopic_scenario (xs ys : list node) : M bool :=
  c ← init xs "" true ∅;
  other ← init ys "" true ∅;
  is_homotopic_to c (ArgCell other).

(** *** Words of the specification *)

(** The boundary as the specification defines it: the directed edges
    [(elements[i], elements[(i+1) mod n])], in order. *)
Definition cyclic_edges (elements : list node) : list (node * node) :=
  imap (λ i x,
          (x, default x (elements !! ((i + 1) `mod` length elements))))
       elements.

(** Some node occurs twice as the source of a boundary edge. *)
Definition repeated_source (edges : list (node * node)) : Prop :=
  ∃ i j e1 e2, i < j ∧ edges !! i = Some e1 ∧ edges !! j = Some e2
               ∧ e1.1 = e2.1.

(** Some boundary edge is a self-loop. *)
Definition has_self_loop (edges : list (node * node)) : Prop :=
  ∃ i e, edges !! i = Some e ∧ e.1 = e.2.

(** The construction validation, in the specification's words: length at
    least 2; no repeated boundary-edge source when regular; no self-loop
    edge when not regular. *)
Definition passes_validation (elements : list node) (regular : bool)
    : Prop :=
  2 ≤ length elements ∧
  if regular then ¬ repeated_source (cyclic_edges elements)
  else ¬ has_self_loop (cyclic_edges elements).

(** [l2] is [l1] read cyclically from some position. *)
Definition cyclic_rotation (l1 l2 : list node) : Prop :=
  ∃ k, rotate k l1 = l2.

End defs.
End Cell.

(** ** Simplex *)

Module Simplex.
Section defs.
Context `{Countable node} {value : Type}.

(** [x < y] on nodes, as [sorted] evaluates it: [None] when the two nodes
    do not support the comparison (an integer and a string, say), on
    which Python raises [TypeError]. *)
Variable node_lt : node → node → option bool.

(** Nodes are hashable objects and a frozenset is one of them:
    [frozenset_node X] is the node that is the frozenset [X], when the
    nodes at hand include it (no integer or string is one). *)
Variable frozenset_node : gset node → option node.

(** A [Simplex] instance: its identity and the attributes [__init__]
    sets.  [_faces] is a frozenset of instances, kept as the list of its
    members (no two with the same identity). *)
#[warnings="-register-all"]
Inductive t : Type := mk {
  oid : nat;
  name : string;
  construct_tree : bool;
  nodes : gset node;
  _faces : list t;
  properties : gmap string value
}.

(** The class defines no [__eq__]: [a == b] is [a is b]. *)
Definition eq (a b : t) : bool := bool_decide (oid a = oid b).

(** The class defines no [__hash__]: the hash is a function of the
    identity that tells identities apart. *)
Definition hash (a : t) : nat := oid a.

(** [set.add] on a set of instances: a member with the same hash that
    compares equal keeps the newcomer out. *)
Definition set_add (x : t) (s : list t) : list t :=
  if existsb (λ y, bool_decide (hash y = hash x) && eq y x) s then s
  else s ++ [x].

(** [Simplex.__len__]. *)
Definition len (self : t) : nat := size (nodes self).

(** The nodes of [l] can be compared with one another: [<] is supported
    between any two different nodes of [l]. *)
Definition comparable (l : list node) : Prop :=
  ∀ x y, x ∈ l → y ∈ l → x ≠ y → is_Some (node_lt x y).

(** [sorted(face)]: a stable sort by [<], which raises [TypeError] at the
    first comparison that is not supported.  Which nodes a sort compares
    is the algorithm's business; what is used of it below holds of any
    sort by comparisons: it returns a rearrangement when the nodes can
    all be compared, it raises nothing but [TypeError], and on two nodes
    it compares these two. *)
Fixpoint insert_sorted (x : node) (l : list node) : outcome (list node) :=
  match l with
  | [] => Ret [x]
  | y :: l' =>
      match node_lt y x with
      | None => Raise TypeError
      | Some true => l'' ← insert_sorted x l'; Ret (y :: l'')
      | Some false => Ret (x :: l)
      end
  end.

Fixpoint sorted (l : list node) : outcome (list node) :=
  match l with
  | [] => Ret []
  | x :: l' => l'' ← sorted l'; insert_sorted x l''
  end.

(** [Simplex.__init__(self, elements, name, construct_tree, **attr)] with
    the allocation of [self]; the call of [construct_simplex_tree] is the
    parameter [tree].  [elements] is the content of the collection in
    iteration order. *)
Definition init_with (tree : list node → M (list t))
    (elements : list node) (name : option string) (construct_tree : bool)
    (attr : gmap string value) : M t :=
  self ← alloc;
  let name := default "" name in
  let nodes : gset node := list_to_set elements in
  if bool_decide (size nodes ≠ length elements) then raise ValueError
  else
    _faces ← (if construct_tree then tree elements else mret []);
    mret (mk self name construct_tree nodes _faces attr).

(** [Simplex(elements=sorted(face), construct_tree=False)] followed by
    [faceset.add]: the argument [sorted(face)] is evaluated before the
    instance is made, and with [construct_tree=False] the constructor
    does not reach [construct_simplex_tree]. *)
Definition add_face (faceset : list t) (face : list node) : M (list t) :=
  elements ← lift (sorted face);
  s ← init_with (λ _, mret []) elements None false ∅;
  mret (set_add s faceset).

(** [Simplex.construct_simplex_tree(elements)] (a static method). *)
Definition construct_simplex_tree (elements : list node) : M (list t) :=
  let numnodes := length elements in
  foldM (λ faceset r, foldM add_face faceset (combinations elements r))
        [] (range_down numnodes).

(** What the loops of [construct_simplex_tree] come to on a collection
    without duplicates: the combinations of every size from the largest
    down to 1, each turned into an instance of its own, the objects being
    allocated one after the other from [h] on. *)
Definition all_combinations (elements : list node) : list (list node) :=
  concat (combinations elements <$> range_down (length elements)).

Definition face_at (h : heap) (face : list node) : t :=
  mk h "" false (list_to_set face) [] ∅.

Fixpoint faces_from (h : heap) (combos : list (list node)) : list t :=
  match combos with
  | [] => []
  | face :: combos' => face_at h face :: faces_from (S h) combos'
  end.

(** [Simplex(elements, name, construct_tree, **attr)]. *)
Definition init : list node → option string → bool → gmap string value
    → M t :=
  init_with construct_simplex_tree.

(** An item of a candidate collection: a hashable object, which is a
    possible node, or an object that is not hashable (a list, a dict). *)
Inductive item : Type :=
  | Hashable (x : node)
  | Unhashable.

(** [frozenset(e)] on the items [e] yields: [TypeError] at the first item
    that is not hashable. *)
Fixpoint frozenset_of (items : list item) : outcome (gset node) :=
  match items with
  | [] => Ret ∅
  | Hashable x :: items' => X ← frozenset_of items'; Ret ({[x]} ∪ X)
  | Unhashable :: _ => Raise TypeError
  end.

(** The candidates of a membership test, by what [__contains__] asks of
    them: a frozenset (its members are hashable), another iterable with
    a length (a list, a tuple, a set, a string, seen through the items it
    yields, as many as its length), an iterable without [len], a hashable
    object that is not iterable, and any other object. *)
Inductive candidate : Type :=
  | Frozenset (X : gset node)
  | Sized (items : list item)
  | Unsized
  | Scalar (x : node)
  | Opaque.

(** [Simplex.__contains__(self, e)]. *)
Definition contains (self : t) (e : candidate) : outcome bool :=
  if bool_decide (size (nodes self) = 0) then Ret false
  else
    match e with
    | Frozenset X =>
        if bool_decide (size X ≠ 1) then Ret false
        else Ret (bool_decide (X ⊆ nodes self))
    | Sized items =>
        if bool_decide (length items ≠ 1) then Ret false
        else X ← frozenset_of items; Ret (bool_decide (X ⊆ nodes self))
    | Unsized => Raise TypeError
    | Scalar x =>
        match frozenset_node {[x]} with
        | Some fs => Ret (bool_decide (fs ∈ nodes self))
        | None => Ret false
        end
    | Opaque => Ret false
    end.

(** The filter of [boundary]: [len(i) == len(self) - 1], on integers. *)
Definition codimension_one (self i : t) : bool :=
  bool_decide (Z.of_nat (len i) = (Z.of_nat (len self) - 1)%Z).

(** [Simplex.boundary] (a property).  Without the tree the faces are built
    from [self.nodes], a frozenset, in its iteration order, which Python
    leaves open: [elements] gives one. *)
Definition boundary (self : t) : M (list t) :=
  if construct_tree self
  then mret (List.filter (codimension_one self) (_faces self))
  else
    faces ← construct_simplex_tree (elements (nodes self));
    mret (List.filter (codimension_one self) faces).

(** [Simplex.faces] (a property). *)
Definition faces (self : t) : M (list t) :=
  if construct_tree self then mret (_faces self)
  else construct_simplex_tree (elements (nodes self)).

(** [Simplex.__getitem__(self, item)]: the property stored under [item],
    [KeyError] when there is none.  Keys are seen as strings, as the
    keyword arguments of the construction are. *)
Definition getitem (self : t) (item : string) : outcome value :=
  match properties self !! item with
  | Some v => Ret v
  | None => Raise KeyError
  end.

(** [Simplex.__setitem__(self, key, item)]: [self.properties[key] = item];
    the instance after the assignment. *)
Definition setitem (self : t) (key : string) (item : value) : t :=
  mk (oid self) (name self) (construct_tree self) (nodes self) (_faces self)
     (<[key := item]> (properties self)).

(** [Simplex.__iter__]: the nodes, in the iteration order of the frozenset,
    which Python leaves open: [elements] gives one. *)
Definition iter (self : t) : list node := elements (nodes self).

End defs.
End Simplex.

(** ** Nodes for the examples *)

(** [<] on integers. *)
Definition int_lt (x y : Z) : option bool := Some (x <? y)%Z.

(** [<] on integers and strings together: supported between two integers
    and between two strings, not between an integer and a string. *)
Definition mixed_lt (x y : Z + string) : option bool :=
  match x, y with
  | inl m, inl n => Some (m <? n)%Z
  | inr a, inr b => Some (String.ltb a b)
  | _, _ => None
  end.

(** * Facts about the run time *)

Section runtime_facts.
Context {A B : Type}.

Lemma zip_longest_same_length (xs : list A) (ys : list B) :
  length xs = length ys →
  zip_longest xs ys = prod_map Some Some <$> zip xs ys.
Proof.
  revert ys. induction xs as [|x xs IH]; intros [|y ys] Hlen;
    simplify_eq/=; [done|]. by rewrite IH.
Qed.

Lemma deque_rotate_snoc (d : list A) (x : A) :
  deque_rotate (d ++ [x]) = x :: d.
Proof.
  unfold deque_rotate. rewrite last_snoc. f_equal.
  apply removelast_last.
Qed.

Lemma deque_rotate_length (d : list A) :
  length (deque_rotate d) = length d.
Proof.
  destruct (decide (d = [])) as [->|Hne]; [done|].
  apply last_is_Some in Hne as [x Hx]. apply last_Some in Hx as [d' ->].
  rewrite deque_rotate_snoc, length_app. simpl. lia.
Qed.

(** Rotating as many steps as the second part is long brings it to the
    front. *)
Lemma deque_rotate_iter (b a : list A) :
  Nat.iter (length b) deque_rotate (a ++ b) = b ++ a.
Proof.
  revert a. induction b as [|x b IH] using rev_ind; intros a.
  - by rewrite app_nil_r.
  - rewrite length_app, Nat.add_comm. cbn [length Nat.add].
    rewrite Nat.iter_succ_r, app_assoc, deque_rotate_snoc.
    rewrite app_comm_cons, (IH (x :: a)). by rewrite <-app_assoc.
Qed.

(** Conversely, every number of steps splits the deque that way. *)
Lemma deque_rotate_iter_split (i : nat) (d : list A) :
  ∃ a b, d = a ++ b ∧ Nat.iter i deque_rotate d = b ++ a.
Proof.
  induction i as [|i (a & b & Hd & Hi)].
  - exists d, []. by rewrite app_nil_r.
  - rewrite Nat.iter_succ, Hi.
    destruct a as [|y a _] using rev_ind.
    + rewrite app_nil_r. destruct b as [|x b _] using rev_ind.
      * exists [], []. by subst.
      * exists b, [x]. rewrite deque_rotate_snoc. by simplify_list_eq.
    + exists a, (y :: b). rewrite app_assoc, deque_rotate_snoc.
      by simplify_list_eq.
Qed.

End runtime_facts.

(** * Facts about [Cell] *)

Section cell_facts.
Context `{Countable node} {value : Type}.
Implicit Types (l elements : list node) (edges : list (node * node)).
Implicit Types (x y : node) (attr : gmap string value).

(** ** The boundary *)

Lemma successors_length l succ :
  Cell.successors l = Ret succ → length succ = length l.
Proof.
  unfold Cell.successors. destruct l as [|x l]; intros Hs; simplify_eq/=.
  rewrite length_app. simpl. lia.
Qed.

(** [zip_longest] never pads in [boundary_of]. *)
Lemma zip_longest_successors l succ :
  Cell.successors l = Ret succ →
  zip_longest l succ = prod_map Some Some <$> zip l succ.
Proof.
  intros Hs. apply zip_longest_same_length. symmetry.
  by apply successors_length.
Qed.

Lemma boundary_of_nil : Cell.boundary_of (@nil node) = Raise IndexError.
Proof. reflexivity. Qed.

Lemma cyclic_edges_lookup l i a b :
  Cell.cyclic_edges l !! i = Some (a, b) ↔
  l !! i = Some a ∧ l !! ((i + 1) `mod` length l) = Some b.
Proof.
  unfold Cell.cyclic_edges. rewrite list_lookup_imap.
  destruct (l !! i) as [a'|] eqn:Hi; simpl; [|naive_solver].
  assert (i < length l) as Hlt.
  { by eapply lookup_lt_Some. }
  assert ((i + 1) `mod` length l < length l) as Hm.
  { apply Nat.mod_upper_bound. lia. }
  apply lookup_lt_is_Some in Hm as [b' Hb']. rewrite Hb'. simpl.
  naive_solver.
Qed.

Lemma successor_lookup x l i :
  i < S (length l) →
  (l ++ [x]) !! i = (x :: l) !! ((i + 1) `mod` S (length l)).
Proof.
  intros Hlt. destruct (decide (i = length l)) as [->|Hne].
  - replace (length l + 1) with (S (length l)) by lia.
    rewrite Nat.Div0.mod_same.
    by rewrite lookup_app_r, Nat.sub_diag by lia.
  - rewrite Nat.mod_small by lia.
    replace (i + 1) with (S i) by lia.
    by rewrite lookup_app_l by lia.
Qed.

(** The code's boundary is the specification's. *)
Lemma zip_successors x l :
  zip (x :: l) (l ++ [x]) = Cell.cyclic_edges (x :: l).
Proof.
  apply list_eq. intros i. unfold Cell.cyclic_edges.
  rewrite list_lookup_imap, lookup_zip_with.
  destruct ((x :: l) !! i) as [a|] eqn:Hi; [|done].
  assert (i < S (length l)) as Hlt.
  { apply lookup_lt_Some in Hi. simpl in Hi. lia. }
  rewrite (successor_lookup x l i Hlt). cbn [length].
  destruct (lookup_lt_is_Some_2 (x :: l) ((i + 1) `mod` S (length l)))
    as [b Hb].
  { cbn [length]. apply Nat.mod_upper_bound. lia. }
  by rewrite Hb.
Qed.

Lemma boundary_of_cons x l :
  Cell.boundary_of (x :: l) = Ret (Cell.cyclic_edges (x :: l)).
Proof.
  unfold Cell.boundary_of, Cell.successors.
  cbn [index0 mbind outcome_bind tail]. by rewrite zip_successors.
Qed.

Lemma cyclic_edges_length l : length (Cell.cyclic_edges l) = length l.
Proof. apply length_imap. Qed.

Lemma cyclic_edges_sources l : (Cell.cyclic_edges l).*1 = l.
Proof.
  apply list_eq. intros i. rewrite list_lookup_fmap.
  unfold Cell.cyclic_edges. rewrite list_lookup_imap.
  by destruct (l !! i).
Qed.

(** ** The two validations *)

Lemma check_regular_valid (adj : gmap node node) edges :
  Cell.check_regular adj edges =
  if Cell.valid_regular adj edges then Ret () else Raise ValueError.
Proof.
  revert adj. induction edges as [|e edges IH]; intros adj; simpl; [done|].
  by case_decide.
Qed.

Lemma check_no_self_loop_valid edges :
  Cell.check_no_self_loop edges =
  if Cell.valid_no_self_loop edges then Ret () else Raise ValueError.
Proof.
  induction edges as [|e edges IH]; simpl; [done|]. by case_decide.
Qed.

Lemma valid_regular_spec (adj : gmap node node) edges :
  Cell.valid_regular adj edges = true ↔
  NoDup edges.*1 ∧ ∀ x, x ∈ edges.*1 → x ∉ dom adj.
Proof.
  revert adj. induction edges as [|[a b] edges IH]; intros adj; simpl.
  - split; [|done]. intros _. split; [constructor|]. by intros x ?%elem_of_nil.
  - case_decide as Hin.
    + split; [done|]. intros [_ Hdom]. destruct (Hdom a); [left|done].
    + rewrite IH, NoDup_cons. setoid_rewrite dom_insert.
      setoid_rewrite elem_of_cons. set_solver.
Qed.

Lemma repeated_source_NoDup edges :
  Cell.repeated_source edges ↔ ¬ NoDup edges.*1.
Proof.
  split.
  - intros (i & j & e1 & e2 & Hij & Hi & Hj & Heq) Hnd.
    cut (i = j); [lia|].
    apply (proj1 (NoDup_alt _) Hnd i j e1.1); rewrite list_lookup_fmap.
    + by rewrite Hi.
    + rewrite Hj. simpl. by rewrite Heq.
  - induction edges as [|e edges IH]; intros Hnd.
    { destruct Hnd. constructor. }
    destruct (decide (e.1 ∈ edges.*1)) as [Hin|Hnin].
    + apply list_elem_of_lookup in Hin as [j Hj].
      rewrite list_lookup_fmap in Hj.
      destruct (edges !! j) as [e2|] eqn:He2; simplify_eq/=.
      exists 0, (S j), e, e2. repeat split; [lia|done..].
    + destruct IH as (i & j & e1 & e2 & Hij & Hi & Hj & Heq).
      { intros Hnd'. apply Hnd. simpl. by apply NoDup_cons. }
      exists (S i), (S j), e1, e2. repeat split; [lia|done..].
Qed.

Lemma valid_regular_repeated edges :
  Cell.valid_regular ∅ edges = false ↔ Cell.repeated_source edges.
Proof.
  rewrite repeated_source_NoDup, <-not_true_iff_false, valid_regular_spec.
  split.
  - intros Hn Hnd. apply Hn. split; [done|]. intros x _.
    rewrite dom_empty. apply not_elem_of_empty.
  - intros Hn [Hnd _]. done.
Qed.

Lemma valid_no_self_loop_spec edges :
  Cell.valid_no_self_loop edges = false ↔ Cell.has_self_loop edges.
Proof.
  induction edges as [|e edges IH]; simpl.
  - split; [done|]. by intros (i & e & ? & _).
  - case_decide as Heq.
    + split; [|done]. intros _. by exists 0, e.
    + rewrite IH. split.
      * intros (i & e' & Hi & He'). by exists (S i), e'.
      * intros ([|i] & e' & Hi & He'); simplify_eq/=. by exists i, e'.
Qed.

(** ** The constructor, case by case *)

Lemma init_nil name regular attr (h : heap) :
  Cell.init (@nil node) name regular attr h = (Raise IndexError, S h).
Proof. reflexivity. Qed.

Lemma init_cons x l name regular attr (h : heap) :
  Cell.init (x :: l) name regular attr h =
  let edges := Cell.cyclic_edges (x :: l) in
  if bool_decide (length (x :: l) ≤ 1) then (Raise ValueError, S h)
  else if (if regular then Cell.valid_regular ∅ edges
           else Cell.valid_no_self_loop edges)
  then (Ret (Cell.mk h (Cell.Atom_init (x :: l) name attr) regular edges),
        S h)
  else (Raise ValueError, S h).
Proof.
  unfold Cell.init. unfold mbind at 1. unfold M_bind, alloc.
  unfold mbind at 1. unfold M_bind, lift. rewrite boundary_of_cons.
  cbv zeta. case_bool_decide; [done|].
  unfold mbind, M_bind.
  destruct regular.
  - rewrite check_regular_valid. by destruct (Cell.valid_regular _ _).
  - rewrite check_no_self_loop_valid.
    by destruct (Cell.valid_no_self_loop _).
Qed.

(** The boolean the constructor's validation comes down to. *)
Lemma init_long elements name regular attr (h : heap) :
  2 ≤ length elements →
  Cell.init elements name regular attr h =
  if (if regular then Cell.valid_regular ∅ (Cell.cyclic_edges elements)
      else Cell.valid_no_self_loop (Cell.cyclic_edges elements))
  then (Ret (Cell.mk h (Cell.Atom_init elements name attr) regular
               (Cell.cyclic_edges elements)), S h)
  else (Raise ValueError, S h).
Proof.
  intros Hlen. destruct elements as [|x l]; [simpl in Hlen; lia|].
  rewrite init_cons. cbv zeta. case_bool_decide; [lia|done].
Qed.

Lemma init_short elements name regular attr (h : heap) :
  length elements = 1 →
  Cell.init elements name regular attr h = (Raise ValueError, S h).
Proof.
  intros Hlen. destruct elements as [|x l]; [done|].
  rewrite init_cons. cbv zeta. case_bool_decide; [done|lia].
Qed.

(** A cell that was constructed has at least two elements and the
    boundary of the specification. *)
Lemma init_Ret elements name regular attr (h h' : heap) (c : Cell.t) :
  Cell.init elements name regular attr h = (Ret c, h') →
  2 ≤ length elements ∧ h' = S h ∧
  c = Cell.mk h (Cell.Atom_init elements name attr) regular
        (Cell.cyclic_edges elements) ∧
  (if regular then Cell.valid_regular ∅ (Cell.cyclic_edges elements)
   else Cell.valid_no_self_loop (Cell.cyclic_edges elements)) = true.
Proof.
  intros Hinit.
  destruct elements as [|x [|y l]].
  - by rewrite init_nil in Hinit.
  - by rewrite init_short in Hinit.
  - rewrite init_long in Hinit by (simpl; lia).
    destruct (if regular then _ else _); simplify_eq.
    repeat split; simpl; lia.
Qed.

End cell_facts.

(** ** Construction and its static check *)

Section cell_construction.
Context `{Countable node} {value : Type}.
Implicit Types (l elements : list node) (edges : list (node * node)).
Implicit Types (x y : node) (attr : gmap string value).

Lemma passes_validation_valid elements regular :
  Cell.passes_validation elements regular ↔
  2 ≤ length elements ∧
  (if regular then Cell.valid_regular ∅ (Cell.cyclic_edges elements)
   else Cell.valid_no_self_loop (Cell.cyclic_edges elements)) = true.
Proof.
  unfold Cell.passes_validation. destruct regular.
  - by rewrite <-valid_regular_repeated, not_false_iff_true.
  - by rewrite <-valid_no_self_loop_spec, not_false_iff_true.
Qed.

Lemma init_succeeds_iff elements name regular attr (h : heap) :
  (∃ c, Cell.init elements name regular attr h = (Ret c, S h)) ↔
  Cell.passes_validation elements regular.
Proof.
  rewrite passes_validation_valid. split.
  - intros [c Hc]. apply (init_Ret (value:=value)) in Hc. naive_solver.
  - intros [Hlen Hv]. rewrite init_long, Hv by done. eauto.
Qed.

Lemma is_valid_cell_list x l regular :
  Cell.is_valid_cell (Cell.PyList (x :: l)) regular =
  Ret (bool_decide (2 ≤ length (x :: l)) &&
       (if regular then Cell.valid_regular ∅ (Cell.cyclic_edges (x :: l))
        else Cell.valid_no_self_loop (Cell.cyclic_edges (x :: l)))).
Proof.
  unfold Cell.is_valid_cell, Cell.successors_seq.
  cbn [Cell.items_of index0 mbind outcome_bind tail].
  rewrite zip_successors.
  case_bool_decide; case_bool_decide; try lia; by destruct regular.
Qed.

(** C3. [Cell.is_valid_cell] is not the total predicate its documentation
    announces: on the empty list (and the empty tuple) it raises
    [IndexError], since [elements[0]] is evaluated before the length is
    looked at, and on a non-empty tuple it raises [TypeError], since a
    tuple slice is added to a list.  On a non-empty list it returns a
    boolean, and that boolean is true exactly when the elements pass the
    construction validation, that is, exactly when the constructor
    returns a cell. *)
Theorem is_valid_cell_partial regular :
  Cell.is_valid_cell (Cell.PyList (@nil node)) regular = Raise IndexError
  ∧ Cell.is_valid_cell (Cell.PyTuple (@nil node)) regular = Raise IndexError
  ∧ (∀ x l,
       Cell.is_valid_cell (Cell.PyTuple (x :: l)) regular = Raise TypeError)
  ∧ (∀ x l name attr (h : heap), ∃ b,
       Cell.is_valid_cell (Cell.PyList (x :: l)) regular = Ret b
       ∧ (b = true ↔ Cell.passes_validation (x :: l) regular)
       ∧ (b = true ↔
          ∃ c, Cell.init (x :: l) name regular attr h = (Ret c, S h))).
Proof.
  split_and!; [done..|]. intros x l name attr h.
  eexists. split; [apply is_valid_cell_list|].
  rewrite init_succeeds_iff, passes_validation_valid.
  rewrite andb_true_iff, bool_decide_eq_true. done.
Qed.

(** C4. A collection of one element is refused with [ValueError]; the
    empty collection is refused too, but with [IndexError], raised by
    [elements[0]] before the length check is reached.  In both cases the
    construction gives no instance. *)
Theorem init_too_short name regular attr (h : heap) :
  Cell.init (@nil node) name regular attr h = (Raise IndexError, S h)
  ∧ ∀ x, Cell.init [x] name regular attr h = (Raise ValueError, S h).
Proof.
  split; [apply init_nil|]. intros x. by apply init_short.
Qed.

(** C7. For a sequence of at least two elements, the regular construction
    raises [ValueError] exactly when some node is the source of two
    boundary edges and returns a cell otherwise; the non-regular
    construction raises [ValueError] exactly when some boundary edge is a
    self-loop and returns a cell otherwise, whether sources repeat or
    not.  [Cell((1,2,1,2), regular=False)] is constructed and
    [Cell((1,2,1,2), regular=True)] is refused. *)
Theorem init_regularity elements name attr (h : heap) :
  2 ≤ length elements →
  ((Cell.init elements name true attr h).1 = Raise ValueError ↔
     Cell.repeated_source (Cell.cyclic_edges elements))
  ∧ ((∃ c, Cell.init elements name true attr h = (Ret c, S h)) ↔
     ¬ Cell.repeated_source (Cell.cyclic_edges elements))
  ∧ ((Cell.init elements name false attr h).1 = Raise ValueError ↔
     Cell.has_self_loop (Cell.cyclic_edges elements))
  ∧ ((∃ c, Cell.init elements name false attr h = (Ret c, S h)) ↔
     ¬ Cell.has_self_loop (Cell.cyclic_edges elements))
  ∧ (∃ c, Cell.init [1; 2; 1; 2]%Z name false attr h = (Ret c, S h))
  ∧ Cell.init [1; 2; 1; 2]%Z name true attr h = (Raise ValueError, S h).
Proof.
  intros Hlen.
  rewrite <-valid_regular_repeated, <-valid_no_self_loop_spec.
  rewrite !init_long by done.
  split_and!.
  - by destruct (Cell.valid_regular _ _).
  - destruct (Cell.valid_regular _ _); [|naive_solver]. split; eauto.
  - by destruct (Cell.valid_no_self_loop _).
  - destruct (Cell.valid_no_self_loop _); [|naive_solver]. split; eauto.
  - rewrite init_long by (simpl; lia). eauto.
  - by rewrite init_long by (simpl; lia).
Qed.

End cell_construction.

Lemma init_regularity_witness :
  2 ≤ length [1; 2; 3]%Z ∧
  ((∃ c, Cell.init (value:=()) [1; 2; 3]%Z "abc" true ∅ 0 = (Ret c, 1)) ↔
   ¬ Cell.repeated_source (Cell.cyclic_edges [1; 2; 3]%Z)).
Proof.
  split; [simpl; lia|].
  apply (init_regularity (value:=()) [1; 2; 3]%Z "abc" ∅ 0). simpl. lia.
Defined.

(** ** Orientation: [sign] and [reverse] *)

Section cell_orientation.
Context `{Countable node} {value : Type}.
Implicit Types (l elements : list node) (edges : list (node * node)).
Implicit Types (x y a b : node) (attr : gmap string value).
Implicit Types (c : Cell.t (node:=node) (value:=value)).

Lemma sign_forward c a b :
  (a, b) ∈ Cell.boundary c → Cell.sign c (Cell.Items [a; b]) = Ret 1%Z.
Proof. intros Hin. simpl. by rewrite bool_decide_eq_true_2. Qed.

Lemma sign_backward c a b :
  (a, b) ∉ Cell.boundary c → (b, a) ∈ Cell.boundary c →
  Cell.sign c (Cell.Items [a; b]) = Ret (-1)%Z.
Proof.
  intros Hnin Hin. simpl.
  by rewrite bool_decide_eq_false_2, bool_decide_eq_true_2.
Qed.

Lemma sign_absent c a b :
  (a, b) ∉ Cell.boundary c → (b, a) ∉ Cell.boundary c →
  Cell.sign c (Cell.Items [a; b]) = Raise KeyError.
Proof. intros Hnin Hnin'. simpl. by rewrite !bool_decide_eq_false_2. Qed.

Lemma sign_arity c (items : list node) :
  length items ≠ 2 → Cell.sign c (Cell.Items items) = Raise ValueError.
Proof. by destruct items as [|a [|b [|d items]]]. Qed.

(** Reversing the elements reverses every boundary edge. *)
Lemma cyclic_edges_reverse l a b :
  (a, b) ∈ Cell.cyclic_edges (reverse l) ↔ (b, a) ∈ Cell.cyclic_edges l.
Proof.
  assert (∀ l a b, (a, b) ∈ Cell.cyclic_edges (reverse l) →
                   (b, a) ∈ Cell.cyclic_edges l) as Hone.
  { clear l a b. intros l a b [i Hi]%list_elem_of_lookup.
    apply cyclic_edges_lookup in Hi as [Ha Hb].
    rewrite length_reverse in Hb.
    assert (i < length l) as Hi.
    { apply lookup_lt_Some in Ha. by rewrite length_reverse in Ha. }
    assert ((i + 1) `mod` length l < length l) as Hm.
    { apply Nat.mod_upper_bound. lia. }
    rewrite reverse_lookup in Ha, Hb by done.
    apply list_elem_of_lookup.
    exists (length l - S ((i + 1) `mod` length l)).
    apply cyclic_edges_lookup. split; [done|].
    rewrite <-Ha. f_equal.
    destruct (decide (i + 1 = length l)) as [Heq|Hne].
    - rewrite Heq, Nat.Div0.mod_same.
      replace (length l - 1 + 1) with (length l) by lia.
      rewrite Nat.Div0.mod_same. lia.
    - rewrite (Nat.mod_small (i + 1)) by lia.
      rewrite Nat.mod_small by lia. lia. }
  split; [apply Hone|]. intros Hin. apply Hone.
  by rewrite reverse_involutive.
Qed.

Lemma valid_regular_reverse l :
  Cell.valid_regular ∅ (Cell.cyclic_edges (reverse l)) =
  Cell.valid_regular ∅ (Cell.cyclic_edges l).
Proof.
  apply eq_bool_prop_intro. rewrite !Is_true_true, !valid_regular_spec.
  rewrite !cyclic_edges_sources, reverse_Permutation.
  by setoid_rewrite elem_of_reverse.
Qed.

Lemma has_self_loop_elem_of edges :
  Cell.has_self_loop edges ↔ ∃ a, (a, a) ∈ edges.
Proof.
  split.
  - intros (i & [a b] & Hi & Heq). simpl in Heq. subst b.
    exists a. apply list_elem_of_lookup. eauto.
  - intros [a [i Hi]%list_elem_of_lookup]. by exists i, (a, a).
Qed.

Lemma valid_no_self_loop_reverse l :
  Cell.valid_no_self_loop (Cell.cyclic_edges (reverse l)) =
  Cell.valid_no_self_loop (Cell.cyclic_edges l).
Proof.
  apply eq_true_iff_eq.
  rewrite <-!not_false_iff_true, !valid_no_self_loop_spec.
  rewrite !has_self_loop_elem_of. by setoid_rewrite cyclic_edges_reverse.
Qed.

(** [reverse] on a constructed cell, at any later time. *)
Lemma reverse_Ret elements name regular attr (h0 h1 h : heap) c :
  Cell.init elements name regular attr h0 = (Ret c, h1) →
  Cell.reverse c h =
  (Ret (Cell.mk h (Cell.Atom_init (reverse elements) name attr) regular
          (Cell.cyclic_edges (reverse elements))), S h).
Proof.
  intros (Hlen & -> & -> & Hv)%init_Ret. unfold Cell.reverse.
  cbn [Cell.elements Cell.name Cell._regular Cell._properties Cell.base
       Cell.Atom_init Cell.atom_elements Cell.atom_name
       Cell.atom_properties].
  rewrite init_long by (by rewrite length_reverse).
  rewrite valid_regular_reverse, valid_no_self_loop_reverse.
  by rewrite Hv.
Qed.

(** C6 (amended).  [sign] goes through its cases in order.  An argument
    that is not iterable raises [TypeError]; an iterable whose length is
    not 2 raises [ValueError]; a 2-element edge gives [+1] if it is a
    boundary edge in the orientation given, otherwise [-1] if its reverse
    is a boundary edge, otherwise [KeyError].  On [Cell((1,2,3))], whose
    boundary is [(1,2), (2,3), (3,1)]: [sign((2,3)) == 1],
    [sign((3,2)) == -1], and [sign((1,3)) == -1] too, since [(3,1)]
    closes the boundary; [sign((1,4))] raises [KeyError]. *)
Theorem sign_spec c :
  Cell.sign c Cell.NotIterable = Raise TypeError
  ∧ Cell.sign c Cell.Unsized = Raise TypeError
  ∧ (∀ items : list node,
       length items ≠ 2 → Cell.sign c (Cell.Items items) = Raise ValueError)
  ∧ (∀ a b, (a, b) ∈ Cell.boundary c →
       Cell.sign c (Cell.Items [a; b]) = Ret 1%Z)
  ∧ (∀ a b, (a, b) ∉ Cell.boundary c → (b, a) ∈ Cell.boundary c →
       Cell.sign c (Cell.Items [a; b]) = Ret (-1)%Z)
  ∧ (∀ a b, (a, b) ∉ Cell.boundary c → (b, a) ∉ Cell.boundary c →
       Cell.sign c (Cell.Items [a; b]) = Raise KeyError)
  ∧ (∀ name attr (h : heap), ∃ c3 : Cell.t (node:=Z) (value:=value),
       Cell.init [1; 2; 3]%Z name true attr h = (Ret c3, S h)
       ∧ Cell.boundary c3 = [(1, 2); (2, 3); (3, 1)]%Z
       ∧ Cell.sign c3 (Cell.Items [2; 3]%Z) = Ret 1%Z
       ∧ Cell.sign c3 (Cell.Items [3; 2]%Z) = Ret (-1)%Z
       ∧ Cell.sign c3 (Cell.Items [1; 3]%Z) = Ret (-1)%Z
       ∧ Cell.sign c3 (Cell.Items [1; 4]%Z) = Raise KeyError).
Proof.
  split_and!; [done|done|apply sign_arity|apply sign_forward
              |apply sign_backward|apply sign_absent|].
  intros name attr h. eexists. split.
  { rewrite init_long by (simpl; lia). reflexivity. }
  split_and!; vm_compute; reflexivity.
Qed.

(** C10. When the orientation given is a boundary edge, [sign] returns
    [+1] and never [-1], whatever the boundary holds besides: the forward
    test comes first.  So when both orientations of an edge are boundary
    edges, as in [Cell((1,2,1,3), regular=False)], both have sign [+1]. *)
Theorem sign_forward_first elements name regular attr (h h' : heap) c a b :
  Cell.init elements name regular attr h = (Ret c, h') →
  (a, b) ∈ Cell.boundary c →
  Cell.sign c (Cell.Items [a; b]) = Ret 1%Z
  ∧ Cell.sign c (Cell.Items [a; b]) ≠ Ret (-1)%Z
  ∧ ((b, a) ∈ Cell.boundary c → Cell.sign c (Cell.Items [b; a]) = Ret 1%Z).
Proof.
  intros _ Hin. rewrite (sign_forward c a b Hin).
  split_and!; [done|done|apply sign_forward].
Qed.

(** C9. On a constructed cell, [reverse] returns a cell; it is a new
    object, its elements are the original's in reverse order, and its
    name, regularity flag and properties are the original's.  Reversing
    the result again gives a cell with the original elements. *)
Theorem reverse_spec elements name regular attr (h0 h1 h : heap) c :
  Cell.init elements name regular attr h0 = (Ret c, h1) →
  h1 ≤ h →
  ∃ r, Cell.reverse c h = (Ret r, S h)
       ∧ Cell.elements r = reverse (Cell.elements c)
       ∧ Cell.name r = Cell.name c
       ∧ Cell._regular r = Cell._regular c
       ∧ Cell._properties r = Cell._properties c
       ∧ Cell.oid r ≠ Cell.oid c
       ∧ ∃ rr, Cell.reverse r (S h) = (Ret rr, S (S h))
               ∧ Cell.elements rr = Cell.elements c.
Proof.
  intros Hinit Hh. pose proof (reverse_Ret _ _ _ _ _ _ h _ Hinit) as Hrev.
  eexists. split; [exact Hrev|].
  destruct (init_Ret _ _ _ _ _ _ _ Hinit) as (Hlen & -> & -> & Hv).
  split_and!; try done.
  - simpl. lia.
  - eexists. split.
    + eapply reverse_Ret. rewrite init_long by (by rewrite length_reverse).
      rewrite valid_regular_reverse, valid_no_self_loop_reverse, Hv.
      reflexivity.
    + simpl. apply reverse_involutive.
Qed.

End cell_orientation.

Lemma sign_forward_first_witness :
  ∃ c : Cell.t (node:=Z) (value:=()),
    Cell.init [1; 2; 1; 3]%Z "" false ∅ 0 = (Ret c, 1)
    ∧ (1, 2)%Z ∈ Cell.boundary c ∧ (2, 1)%Z ∈ Cell.boundary c
    ∧ Cell.sign c (Cell.Items [1; 2]%Z) = Ret 1%Z
    ∧ Cell.sign c (Cell.Items [2; 1]%Z) = Ret 1%Z.
Proof.
  eexists. split; [reflexivity|].
  assert ((1, 2)%Z ∈ [(1, 2); (2, 1); (1, 3); (3, 1)]%Z) as H12.
  { apply list_elem_of_In. simpl. tauto. }
  assert ((2, 1)%Z ∈ [(1, 2); (2, 1); (1, 3); (3, 1)]%Z) as H21.
  { apply list_elem_of_In. simpl. tauto. }
  split; [exact H12|]. split; [exact H21|].
  pose proof (sign_forward_first (value:=()) [1; 2; 1; 3]%Z "" false ∅ 0 1 _
                1%Z 2%Z eq_refl H12) as (H1 & _ & H2).
  split; [exact H1|exact (H2 H21)].
Defined.

Lemma reverse_spec_witness :
  ∃ c r : Cell.t (node:=Z) (value:=()),
    Cell.init [1; 2; 3]%Z "t" true ∅ 0 = (Ret c, 1)
    ∧ Cell.reverse c 1 = (Ret r, 2)
    ∧ Cell.elements r = [3; 2; 1]%Z.
Proof.
  pose (c := Cell.mk (value:=()) 0 (Cell.Atom_init [1; 2; 3]%Z "t" ∅) true
                 (Cell.cyclic_edges [1; 2; 3]%Z)).
  exists c.
  assert (Cell.init [1; 2; 3]%Z "t" true ∅ 0 = (Ret c, 1)) as Hc.
  { vm_compute. reflexivity. }
  destruct (reverse_spec [1; 2; 3]%Z "t" true ∅ 0 1 1 c Hc (le_n 1))
    as (r & Hr & Hel & _).
  exists r. split; [exact Hc|]. split; [exact Hr|exact Hel].
Defined.

(** C6, as first stated, fails on its own example: [(1,3)] is the reverse
    of the boundary edge [(3,1)] of [Cell((1,2,3))], so [sign((1,3))]
    returns [-1] and raises nothing. *)
Lemma sign_13_not_KeyError :
  ∃ c : Cell.t (node:=Z) (value:=()),
    Cell.init [1; 2; 3]%Z "" true ∅ 0 = (Ret c, 1)
    ∧ Cell.sign c (Cell.Items [1; 3]%Z) = Ret (-1)%Z
    ∧ Cell.sign c (Cell.Items [1; 3]%Z) ≠ Raise KeyError.
Proof.
  eexists. split; [reflexivity|]. split; [reflexivity|]. discriminate.
Qed.

Lemma sign_spec_witness :
  ∃ c : Cell.t (node:=Z) (value:=()),
    Cell.init [1; 2; 3; 4]%Z "" true ∅ 0 = (Ret c, 1)
    ∧ ((1, 3)%Z ∉ Cell.boundary c) ∧ ((3, 1)%Z ∉ Cell.boundary c)
    ∧ Cell.sign c (Cell.Items [1; 3]%Z) = Raise KeyError.
Proof.
  pose (c := Cell.mk (value:=()) 0 (Cell.Atom_init [1; 2; 3; 4]%Z "" ∅) true
                 [(1, 2); (2, 3); (3, 4); (4, 1)]%Z).
  exists c. split; [vm_compute; reflexivity|].
  assert ((1, 3)%Z ∉ Cell.boundary c) as H13.
  { rewrite list_elem_of_In. simpl. intuition congruence. }
  assert ((3, 1)%Z ∉ Cell.boundary c) as H31.
  { rewrite list_elem_of_In. simpl. intuition congruence. }
  split; [exact H13|]. split; [exact H31|].
  exact (proj1 (proj2 (proj2 (proj2 (proj2 (proj2 (sign_spec c))))))
           1%Z 3%Z H13 H31).
Defined.

(** ** Homotopy *)

Section cell_homotopy.
Context `{Countable node} {value : Type}.
Implicit Types (l seq elements : list node).
Implicit Types (attr : gmap string value).
Implicit Types (c : Cell.t (node:=node) (value:=value)).

(** A cyclic rotation cuts the list in two and swaps the parts. *)
Lemma cyclic_rotation_split (l1 l2 : list node) :
  Cell.cyclic_rotation l1 l2 ↔ ∃ a b, l1 = a ++ b ∧ l2 = b ++ a.
Proof.
  unfold Cell.cyclic_rotation, rotate. split.
  - intros [k <-]. exists (take (k `mod` length l1) l1),
      (drop (k `mod` length l1) l1). by rewrite take_drop.
  - intros (a & b & -> & ->). exists (length a).
    destruct b as [|x b].
    + rewrite !app_nil_r, Nat.Div0.mod_same. simpl.
      by rewrite take_0, app_nil_r.
    + rewrite Nat.mod_small by (rewrite length_app; simpl; lia).
      by rewrite drop_app_length, take_app_length.
Qed.

Lemma cyclic_rotation_sym (l1 l2 : list node) :
  Cell.cyclic_rotation l1 l2 ↔ Cell.cyclic_rotation l2 l1.
Proof. rewrite !cyclic_rotation_split. naive_solver. Qed.

Lemma cyclic_rotation_reverse (l1 l2 : list node) :
  Cell.cyclic_rotation (reverse l1) l2 ↔
  Cell.cyclic_rotation l1 (reverse l2).
Proof.
  rewrite !cyclic_rotation_split. split.
  - intros (a & b & Hl1 & ->). exists (reverse b), (reverse a).
    rewrite <-!reverse_app, <-Hl1. by rewrite reverse_involutive.
  - intros (a & b & -> & Hl2). exists (reverse b), (reverse a).
    rewrite <-!reverse_app, <-Hl2. by rewrite reverse_involutive.
Qed.

Lemma cyclic_rotation_Permutation (l1 l2 : list node) :
  Cell.cyclic_rotation l1 l2 → l1 ≡ₚ l2.
Proof.
  intros (a & b & -> & ->)%cyclic_rotation_split. apply Permutation_app_comm.
Qed.

(** The loop finds a match exactly when some number of steps, between 1
    and [n], turns [deq2] into [deq1]. *)
Lemma rotate_search_iter n (d1 d2 : list node) :
  Cell.rotate_search n d1 d2 = true ↔
  ∃ i, 1 ≤ i ≤ n ∧ Nat.iter i deque_rotate d2 = d1.
Proof.
  revert d2. induction n as [|n IH]; intros d2; simpl.
  - split; [done|]. intros (i & ? & _). lia.
  - case_bool_decide as Heq.
    + split; [|done]. intros _. exists 1. split; [lia|]. by subst.
    + rewrite IH. split.
      * intros (i & Hi & Hit). exists (S i). split; [lia|].
        by rewrite Nat.iter_succ_r.
      * intros ([|[|i]] & Hi & Hit); [lia|by destruct Heq|].
        exists (S i). split; [lia|]. by rewrite Nat.iter_succ_r in Hit.
Qed.

Lemma rotate_search_spec (d1 d2 : list node) :
  d2 ≠ [] →
  Cell.rotate_search (length d2) d1 d2 = true ↔ Cell.cyclic_rotation d1 d2.
Proof.
  intros Hne. rewrite rotate_search_iter, cyclic_rotation_sym.
  rewrite cyclic_rotation_split. split.
  - intros (i & _ & <-). apply deque_rotate_iter_split.
  - intros (a & b & -> & ->). destruct b as [|x b].
    + exists (length a). rewrite app_nil_r in *. split.
      * destruct a; [done|simpl; lia].
      * pose proof (deque_rotate_iter a []) as Hit.
        by rewrite app_nil_r in Hit.
    + exists (length (x :: b)). split.
      * rewrite length_app. simpl. lia.
      * apply deque_rotate_iter.
Qed.

(** [_are_homotopic] decides whether the sequences are cyclic rotations
    of one another. *)
Lemma are_homotopic_spec c cell seq :
  Cell.seq_of cell = Ret seq → Cell.elements c ≠ [] →
  ∃ b, Cell._are_homotopic c cell = Ret b
       ∧ (b = true ↔ Cell.cyclic_rotation (Cell.elements c) seq).
Proof.
  intros Hseq Hne. unfold Cell._are_homotopic. rewrite Hseq.
  cbn [mbind outcome_bind]. unfold Cell.len.
  case_bool_decide as Hlen.
  { exists false. split; [done|]. split; [done|].
    intros Hrot%cyclic_rotation_Permutation.
    destruct Hlen. by rewrite Hrot. }
  case_bool_decide as Hcnt.
  { exists false. split; [done|]. split; [done|].
    intros Hrot%cyclic_rotation_Permutation.
    destruct Hcnt. unfold Cell.Counter. by rewrite Hrot. }
  eexists. split; [done|]. apply rotate_search_spec.
  intros ->. by destruct (Cell.elements c).
Qed.

Lemma are_homotopic_TypeError c :
  Cell._are_homotopic c Cell.ArgOther = Raise TypeError.
Proof. done. Qed.

Lemma is_homotopic_to_Ret elements name regular attr (h0 h1 h : heap) c
    cell seq :
  Cell.init elements name regular attr h0 = (Ret c, h1) →
  Cell.seq_of cell = Ret seq →
  ∃ b h', Cell.is_homotopic_to c cell h = (Ret b, h')
    ∧ (b = true ↔
       Cell.cyclic_rotation (Cell.elements c) seq
       ∨ Cell.cyclic_rotation (Cell.elements c) (reverse seq)).
Proof.
  intros Hinit Hseq.
  pose proof (reverse_Ret _ _ _ _ _ _ h _ Hinit) as Hrev.
  destruct (init_Ret _ _ _ _ _ _ _ Hinit) as (Hlen & -> & Hc & Hv).
  assert (Cell.elements c = elements) as Hel by (by subst c).
  destruct (are_homotopic_spec c cell seq Hseq) as (b1 & Hb1 & Hiff1).
  { rewrite Hel. by destruct elements. }
  unfold Cell.is_homotopic_to. unfold mbind at 1. unfold M_bind, lift.
  rewrite Hb1. destruct b1.
  { exists true, h. split; [done|]. split; [|done]. intros _. left.
    by apply Hiff1. }
  unfold mbind, M_bind. rewrite Hrev.
  set (r := Cell.mk _ _ _ _).
  assert (Cell.elements r = reverse elements) as Hr by done.
  destruct (are_homotopic_spec r cell seq Hseq) as (b2 & Hb2 & Hiff2).
  { rewrite Hr. intros Hnil%(f_equal length).
    rewrite length_reverse in Hnil. simpl in Hnil. lia. }
  rewrite Hb2. exists b2, (S h). split; [done|].
  rewrite Hiff2, Hr, cyclic_rotation_reverse, Hel.
  rewrite Hel in Hiff1. split; [by right|]. intros [Hrot|Hrot]; [|done].
  apply Hiff1 in Hrot. done.
Qed.

(** C5. On a constructed cell, [is_homotopic_to] returns a boolean, and
    it is true exactly when the two element sequences have the same
    length and the same multiset of nodes, and some cyclic rotation of
    the cell's sequence is the other sequence or the other sequence
    reversed.  [Cell((1,2,3))] is homotopic to [Cell((2,3,1))],
    [Cell((3,2,1))] and [Cell((1,3,2))], and not to [Cell((1,2,4))]. *)
Theorem is_homotopic_to_spec :
  (∀ elements name regular attr (h0 h1 h : heap) c cell seq,
     Cell.init elements name regular attr h0 = (Ret c, h1) →
     Cell.seq_of cell = Ret seq →
     ∃ b h', Cell.is_homotopic_to c cell h = (Ret b, h')
       ∧ (b = true ↔
          length (Cell.elements c) = length seq
          ∧ Cell.elements c ≡ₚ seq
          ∧ (Cell.cyclic_rotation (Cell.elements c) seq
             ∨ Cell.cyclic_rotation (Cell.elements c) (reverse seq))))
  ∧ (∀ h : heap,
       (Cell.homotopic_scenario (value:=value) [1; 2; 3] [2; 3; 1] h).1
         = Ret true
       ∧ (Cell.homotopic_scenario (value:=value) [1; 2; 3] [3; 2; 1] h).1
         = Ret true
       ∧ (Cell.homotopic_scenario (value:=value) [1; 2; 3] [1; 3; 2] h).1
         = Ret true
       ∧ (Cell.homotopic_scenario (value:=value) [1; 2; 3] [1; 2; 4] h).1
         = Ret false)%Z.
Proof.
  split.
  - intros elements name regular attr h0 h1 h c cell seq Hinit Hseq.
    destruct (is_homotopic_to_Ret _ _ _ _ _ _ h _ _ _ Hinit Hseq)
      as (b & h' & Hb & Hiff).
    exists b, h'. split; [done|]. rewrite Hiff. split; [|tauto].
    intros Hrot. split_and!; [| |done].
    + destruct Hrot as [Hrot|Hrot];
        apply cyclic_rotation_Permutation, Permutation_length in Hrot;
        by rewrite ?length_reverse in Hrot.
    + destruct Hrot as [Hrot|Hrot];
        apply cyclic_rotation_Permutation in Hrot;
        by rewrite ?reverse_Permutation in Hrot.
  - intros h. split_and!; vm_compute; reflexivity.
Qed.

End cell_homotopy.

Lemma is_homotopic_to_spec_witness :
  ∃ (c : Cell.t (node:=Z) (value:=())) b h',
    Cell.init [1; 2; 3]%Z "" true ∅ 0 = (Ret c, 1)
    ∧ Cell.seq_of (value:=()) (Cell.ArgTuple [3; 1; 2]%Z) = Ret [3; 1; 2]%Z
    ∧ Cell.is_homotopic_to c (Cell.ArgTuple [3; 1; 2]%Z) 1 = (Ret b, h')
    ∧ (b = true ↔
       length (Cell.elements c) = length [3; 1; 2]%Z
       ∧ Cell.elements c ≡ₚ [3; 1; 2]%Z
       ∧ (Cell.cyclic_rotation (Cell.elements c) [3; 1; 2]%Z
          ∨ Cell.cyclic_rotation (Cell.elements c) (reverse [3; 1; 2]%Z))).
Proof.
  pose (c := Cell.mk (value:=()) 0 (Cell.Atom_init [1; 2; 3]%Z "" ∅) true
                 [(1, 2); (2, 3); (3, 1)]%Z).
  assert (Cell.init [1; 2; 3]%Z "" true ∅ 0 = (Ret c, 1)) as Hc.
  { vm_compute. reflexivity. }
  destruct (proj1 is_homotopic_to_spec [1; 2; 3]%Z "" true ∅ 0 1 1 c
              (Cell.ArgTuple [3; 1; 2]%Z) [3; 1; 2]%Z Hc eq_refl)
    as (b & h' & Hb & Hiff).
  exists c, b, h'. split; [exact Hc|]. split; [reflexivity|].
  split; [exact Hb|exact Hiff].
Defined.

(** * Facts about [Simplex] *)

Section combinations_facts.
Context {A : Type}.
Implicit Types (l c : list A) (r m n : nat).

Lemma combinations_sublist l r c :
  c ∈ combinations l r ↔ c `sublist_of` l ∧ length c = r.
Proof.
  revert r c. induction l as [|x l IH]; intros [|r] c; simpl.
  - rewrite list_elem_of_singleton. split.
    + intros ->. split; [constructor|done].
    + intros [_ Hlen]. by destruct c.
  - rewrite elem_of_nil. split; [done|].
    intros [Hsub Hlen]. apply sublist_nil_r in Hsub. by subst.
  - rewrite list_elem_of_singleton. split.
    + intros ->. split; [apply sublist_nil_l|done].
    + intros [_ Hlen]. by destruct c.
  - rewrite elem_of_app, list_elem_of_fmap. setoid_rewrite IH. split.
    + intros [(c' & -> & Hsub & Hlen)|[Hsub Hlen]].
      * split; [by constructor|simpl; lia].
      * split; [by constructor|done].
    + intros [Hsub Hlen]. apply sublist_cons_r in Hsub as [Hsub|(c' & -> & Hsub)].
      * by right.
      * left. exists c'. simpl in Hlen. split; [done|]. split; [done|lia].
Qed.

Lemma combinations_0 l : combinations l 0 = [[]].
Proof. by destruct l. Qed.

Lemma count_below_nil m : 0 < m → count_below (@nil A) m = 1.
Proof.
  induction m as [|[|m] IH]; intros Hm; [lia|done|].
  change (count_below [] (S (S m)))
    with (count_below (@nil A) (S m) + length (combinations (@nil A) (S m))).
  rewrite IH by lia. done.
Qed.

Lemma count_below_cons x l m :
  count_below (x :: l) (S m) = count_below l m + count_below l (S m).
Proof.
  induction m as [|m IH]; [simpl; by rewrite combinations_0|].
  change (count_below (x :: l) (S (S m)))
    with (count_below (x :: l) (S m) + length (combinations (x :: l) (S m))).
  rewrite IH. cbn [combinations]. rewrite length_app, length_fmap.
  cbn [count_below]. lia.
Qed.

Lemma count_below_full l m : length l < m → count_below l m = 2 ^ length l.
Proof.
  revert m. induction l as [|x l IH]; intros m Hm.
  - by apply count_below_nil.
  - destruct m as [|m]; [lia|]. simpl in Hm.
    rewrite count_below_cons, !IH by lia. cbn [length]. rewrite Nat.pow_succ_r'. lia.
Qed.

Lemma range_down_S n : range_down (S n) = S n :: range_down n.
Proof.
  unfold range_down. by rewrite seq_S, reverse_app.
Qed.

Lemma combinations_range_down_length l n :
  S (length (concat (combinations l <$> range_down n))) = count_below l (S n).
Proof.
  induction n as [|n IH]; [simpl; by rewrite combinations_0|].
  rewrite range_down_S, fmap_cons. cbn [concat]. rewrite length_app.
  change (count_below l (S (S n)))
    with (count_below l (S n) + length (combinations l (S n))).
  lia.
Qed.

(** All the faces [construct_simplex_tree] goes through: one per
    non-empty subsequence. *)
Lemma combinations_total l :
  length (concat (combinations l <$> range_down (length l))) =
  2 ^ length l - 1.
Proof.
  pose proof (combinations_range_down_length l (length l)) as Hc.
  rewrite count_below_full in Hc by lia. lia.
Qed.

Lemma combinations_NoDup_list l r : NoDup l → NoDup (combinations l r).
Proof.
  revert r. induction l as [|x l IH]; intros [|r] Hnd; simpl.
  - apply NoDup_singleton.
  - constructor.
  - apply NoDup_singleton.
  - apply NoDup_cons in Hnd as [Hx Hnd]. apply NoDup_app. split_and!.
    + apply (NoDup_fmap_2 _). by apply IH.
    + intros c (c' & -> & _)%list_elem_of_fmap [Hsub _]%combinations_sublist.
      apply Hx. eapply elem_of_sublist; [|exact Hsub]. left.
    + by apply IH.
Qed.

Lemma concat_NoDup_by_length (f : nat → list (list A)) (rs : list nat) :
  NoDup rs → (∀ r, NoDup (f r)) → (∀ r c, c ∈ f r → length c = r) →
  NoDup (concat (f <$> rs)).
Proof.
  intros Hrs Hf Hlen. induction Hrs as [|r rs Hr Hrs IH]; simpl.
  - constructor.
  - apply NoDup_app. split_and!; [done| |done].
    intros c Hc Hin. apply list_elem_of_In, in_concat in Hin
      as (cs & Hcs%list_elem_of_In & Hc'%list_elem_of_In).
    apply list_elem_of_fmap in Hcs as (r' & -> & Hr').
    apply Hlen in Hc, Hc'. by subst.
Qed.

End combinations_facts.

Section simplex_facts.
Context `{Countable node} {value : Type}.
Variable node_lt : node → node → option bool.
Implicit Types (l elements face : list node) (x y : node).
Implicit Types (attr : gmap string value) (h : heap).
Implicit Types (s f : Simplex.t (node:=node) (value:=value)).
Implicit Types (fs faceset : list (Simplex.t (node:=node) (value:=value))).

(** ** Nodes that can be compared *)

Lemma comparable_total l :
  (∀ x y, is_Some (node_lt x y)) → Simplex.comparable node_lt l.
Proof. intros Htotal x y _ _ _. apply Htotal. Qed.

Lemma comparable_subseteq l1 l2 :
  (∀ x, x ∈ l1 → x ∈ l2) →
  Simplex.comparable node_lt l2 → Simplex.comparable node_lt l1.
Proof. intros Hsub Hc x y Hx Hy. apply Hc; by apply Hsub. Qed.

Lemma comparable_sublist l1 l2 :
  l1 `sublist_of` l2 →
  Simplex.comparable node_lt l2 → Simplex.comparable node_lt l1.
Proof.
  intros Hsub. apply comparable_subseteq. intros x Hx.
  by eapply elem_of_sublist.
Qed.

Lemma comparable_elements l :
  Simplex.comparable node_lt l →
  Simplex.comparable node_lt (elements (list_to_set (C:=gset node) l)).
Proof.
  apply comparable_subseteq. intros x.
  by rewrite elem_of_elements, elem_of_list_to_set.
Qed.

(** ** [sorted] rearranges, or raises [TypeError] *)

Lemma insert_sorted_Ret x l l' :
  Simplex.insert_sorted node_lt x l = Ret l' → l' ≡ₚ x :: l.
Proof.
  revert l'. induction l as [|y l IH]; intros l'; simpl.
  - by intros [= <-].
  - destruct (node_lt y x) as [[]|]; [|by intros [= <-]|done].
    destruct (Simplex.insert_sorted node_lt x l) as [l''|e]; [|done].
    intros [= <-]. rewrite (IH l'') by done. apply Permutation_swap.
Qed.

Lemma sorted_Permutation l l' :
  Simplex.sorted node_lt l = Ret l' → l' ≡ₚ l.
Proof.
  revert l'. induction l as [|x l IH]; intros l'; simpl.
  - by intros [= <-].
  - destruct (Simplex.sorted node_lt l) as [l''|e]; [|done].
    intros Hins%insert_sorted_Ret. by rewrite Hins, (IH l'').
Qed.

Lemma insert_sorted_Raise x l e :
  Simplex.insert_sorted node_lt x l = Raise e → e = TypeError.
Proof.
  induction l as [|y l IH]; simpl; [done|].
  destruct (node_lt y x) as [[]|]; [|done|by intros [= <-]].
  destruct (Simplex.insert_sorted node_lt x l) as [l''|e']; [done|].
  intros [= <-]. by apply IH.
Qed.

Lemma sorted_Raise l e :
  Simplex.sorted node_lt l = Raise e → e = TypeError.
Proof.
  induction l as [|x l IH]; simpl; [done|].
  destruct (Simplex.sorted node_lt l) as [l''|e'].
  - apply insert_sorted_Raise.
  - intros [= <-]. by apply IH.
Qed.

Lemma insert_sorted_comparable x l :
  (∀ y, y ∈ l → is_Some (node_lt y x)) →
  is_Some (match Simplex.insert_sorted node_lt x l with
           | Ret l' => Some l'
           | Raise _ => None
           end).
Proof.
  induction l as [|y l IH]; intros Hc; simpl; [done|].
  destruct (Hc y) as [b Hb]; [by left|]. rewrite Hb.
  destruct b; [|done].
  destruct IH as [l' Hl']; [by intros z Hz; apply Hc; right|].
  by destruct (Simplex.insert_sorted node_lt x l).
Qed.

(** On different nodes that can be compared, [sorted] returns. *)
Lemma sorted_comparable l :
  NoDup l → Simplex.comparable node_lt l →
  ∃ l', Simplex.sorted node_lt l = Ret l' ∧ l' ≡ₚ l.
Proof.
  induction l as [|x l IH]; intros Hnd Hc; simpl; [by eexists|].
  apply NoDup_cons in Hnd as [Hx Hnd].
  destruct IH as (l'' & -> & Hl''); [done| |].
  { eapply comparable_subseteq; [|exact Hc]. intros z ?. by right. }
  simpl.
  destruct (insert_sorted_comparable x l'') as [l' Hl'].
  { intros y Hy. rewrite Hl'' in Hy. apply Hc; [by right|by left|].
    by intros ->. }
  destruct (Simplex.insert_sorted node_lt x l'') as [l1|e] eqn:Hins;
    [|done].
  exists l1. split; [done|].
  by rewrite (insert_sorted_Ret _ _ _ Hins), Hl''.
Qed.

(** Two nodes that cannot be compared stop it. *)
Lemma sorted_pair x y :
  node_lt y x = None → Simplex.sorted node_lt [x; y] = Raise TypeError.
Proof. intros Hyx. simpl. by rewrite Hyx. Qed.

(** ** The duplicate check *)

Lemma size_list_to_set_le l :
  size (list_to_set (C:=gset node) l) ≤ length l.
Proof.
  induction l as [|x l IH]; cbn [list_to_set length].
  - rewrite size_empty. lia.
  - rewrite size_union_alt, size_singleton.
    assert (size (list_to_set (C:=gset node) l ∖ {[x]})
            ≤ size (list_to_set (C:=gset node) l)) as Hsub.
    { apply subseteq_size. set_solver. }
    lia.
Qed.

Lemma size_list_to_set_NoDup l :
  size (list_to_set (C:=gset node) l) = length l ↔ NoDup l.
Proof.
  split; [|apply size_list_to_set].
  induction l as [|x l IH]; cbn [list_to_set length]; intros Hsize;
    [constructor|].
  pose proof (size_list_to_set_le l) as Hle.
  destruct (decide (x ∈ l)) as [Hin|Hnin].
  - replace ({[x]} ∪ list_to_set l) with (list_to_set (C:=gset node) l)
      in Hsize; [lia|].
    apply set_eq. intros y. rewrite elem_of_union, elem_of_singleton.
    rewrite elem_of_list_to_set. naive_solver.
  - constructor; [done|]. apply IH.
    rewrite size_union, size_singleton in Hsize; [lia|].
    apply disjoint_singleton_l. by rewrite elem_of_list_to_set.
Qed.

(** ** The constructor, case by case *)

Lemma init_with_duplicates tree elements name ct attr h :
  ¬ NoDup elements →
  Simplex.init_with tree elements name ct attr h = (Raise ValueError, S h).
Proof.
  intros Hdup. unfold Simplex.init_with, mbind, M_bind, alloc.
  rewrite bool_decide_eq_true_2; [done|]. by rewrite size_list_to_set_NoDup.
Qed.

Lemma init_with_NoDup tree elements name ct attr h :
  NoDup elements →
  Simplex.init_with tree elements name ct attr h =
  match (if ct then tree elements else mret []) (S h) with
  | (Ret fs, h') =>
      (Ret (Simplex.mk h (default "" name) ct (list_to_set elements) fs attr),
       h')
  | (Raise e, h') => (Raise e, h')
  end.
Proof.
  intros Hnd. unfold Simplex.init_with, mbind, M_bind, alloc.
  rewrite bool_decide_eq_false_2;
    [|by intros []; apply size_list_to_set_NoDup].
  by destruct (_ (S h)) as [[fs|e] h'].
Qed.

(** With [construct_tree=False] the constructor does not reach
    [construct_simplex_tree]: the call in [add_face] is the constructor. *)
Lemma init_without_tree tree elements name attr h :
  Simplex.init_with tree elements name false attr h =
  Simplex.init node_lt elements name false attr h.
Proof.
  unfold Simplex.init, Simplex.init_with, mbind, M_bind, alloc.
  by case_bool_decide.
Qed.

(** ** The face set under construction *)

(** A member joins a set all of whose members are older objects. *)
Lemma set_add_fresh s fs :
  Forall (λ f, Simplex.oid f < Simplex.oid s) fs →
  Simplex.set_add s fs = fs ++ [s].
Proof.
  intros Hold. unfold Simplex.set_add.
  replace (existsb _ fs) with false; [done|].
  symmetry. apply not_true_iff_false. rewrite existsb_exists.
  intros (f & Hin%list_elem_of_In & Heq).
  rewrite Forall_forall in Hold. apply Hold in Hin.
  apply andb_true_iff in Heq as [_ Heq].
  unfold Simplex.eq in Heq. apply bool_decide_eq_true in Heq. lia.
Qed.

Lemma add_face_Ret faceset face h :
  NoDup face → Simplex.comparable node_lt face →
  Forall (λ f, Simplex.oid f < h) faceset →
  Simplex.add_face node_lt faceset face h =
  (Ret (faceset ++ [Simplex.face_at h face]), S h).
Proof.
  intros Hnd Hc Hold. unfold Simplex.add_face.
  destruct (sorted_comparable face Hnd Hc) as (l' & -> & Hl').
  unfold mbind at 1. unfold M_bind, lift.
  unfold mbind at 1. unfold M_bind.
  rewrite init_with_NoDup by (by rewrite Hl').
  cbn [mret M_ret default]. rewrite set_add_fresh by done.
  unfold Simplex.face_at. by rewrite Hl'.
Qed.

(** Whatever the nodes, a combination of different nodes is added or the
    sort raises [TypeError], before an instance is made. *)
Lemma add_face_outcome faceset face h :
  NoDup face →
  match Simplex.sorted node_lt face with
  | Ret _ => ∃ fs, Simplex.add_face node_lt faceset face h = (Ret fs, S h)
  | Raise _ =>
      Simplex.add_face node_lt faceset face h = (Raise TypeError, h)
  end.
Proof.
  intros Hnd. unfold Simplex.add_face.
  destruct (Simplex.sorted node_lt face) as [l'|e] eqn:Hsort.
  - apply sorted_Permutation in Hsort.
    unfold mbind at 1. unfold M_bind, lift.
    unfold mbind at 1. unfold M_bind.
    rewrite init_with_NoDup by (by rewrite Hsort).
    cbn [mret M_ret default]. by eexists.
  - apply sorted_Raise in Hsort as ->. done.
Qed.

Lemma faces_from_oid h (combos : list (list node)) :
  Forall (λ f : Simplex.t (node:=node) (value:=value),
            h ≤ Simplex.oid f < h + length combos)
         (Simplex.faces_from h combos).
Proof.
  revert h. induction combos as [|face combos IH]; intros h; simpl.
  - constructor.
  - constructor; [simpl; lia|].
    eapply Forall_impl; [apply IH|]. simpl. intros f ?. lia.
Qed.

Lemma faces_from_app h (c1 c2 : list (list node)) :
  Simplex.faces_from (value:=value) h (c1 ++ c2) =
  Simplex.faces_from h c1 ++ Simplex.faces_from (h + length c1) c2.
Proof.
  revert h. induction c1 as [|face c1 IH]; intros h; simpl.
  - by rewrite Nat.add_0_r.
  - rewrite IH. do 3 f_equal. lia.
Qed.

Lemma faces_from_length h (combos : list (list node)) :
  length (Simplex.faces_from (value:=value) h combos) = length combos.
Proof.
  revert h. induction combos as [|face combos IH]; intros h; simpl; [done|].
  by rewrite IH.
Qed.

(** The inner loop: every combination becomes a new member. *)
Lemma add_faces_Ret faceset (combos : list (list node)) h :
  Forall NoDup combos →
  Forall (Simplex.comparable node_lt) combos →
  Forall (λ f, Simplex.oid f < h) faceset →
  foldM (Simplex.add_face node_lt) faceset combos h =
  (Ret (faceset ++ Simplex.faces_from h combos), h + length combos).
Proof.
  revert faceset h.
  induction combos as [|face combos IH]; intros faceset h Hnd Hc Hold;
    simpl.
  - by rewrite app_nil_r, Nat.add_0_r.
  - apply Forall_cons in Hnd as [Hface Hnd].
    apply Forall_cons in Hc as [Hcface Hc].
    unfold mbind, M_bind. rewrite add_face_Ret by done.
    rewrite IH; [|done|done|].
    + f_equal; [by rewrite <-app_assoc|lia].
    + apply Forall_app. split.
      * eapply Forall_impl; [exact Hold|]. intros f ?. simpl in *. lia.
      * repeat constructor.
Qed.

Lemma combinations_NoDup elements r :
  NoDup elements → Forall NoDup (combinations elements r).
Proof.
  intros Hnd. apply Forall_forall.
  intros face [Hsub _]%combinations_sublist. by eapply sublist_NoDup.
Qed.

Lemma combinations_comparable elements r :
  Simplex.comparable node_lt elements →
  Forall (Simplex.comparable node_lt) (combinations elements r).
Proof.
  intros Hc. apply Forall_forall.
  intros face [Hsub _]%combinations_sublist. by eapply comparable_sublist.
Qed.

(** The outer loop over the sizes. *)
Lemma add_sizes_Ret elements faceset (sizes : list nat) h :
  NoDup elements → Simplex.comparable node_lt elements →
  Forall (λ f, Simplex.oid f < h) faceset →
  foldM (λ faceset r,
           foldM (Simplex.add_face node_lt) faceset (combinations elements r))
        faceset sizes h =
  (Ret (faceset
        ++ Simplex.faces_from h (concat (combinations elements <$> sizes))),
   h + length (concat (combinations elements <$> sizes))).
Proof.
  intros Hnd Hc. revert faceset h.
  induction sizes as [|r sizes IH]; intros faceset h Hold; simpl.
  - by rewrite app_nil_r, Nat.add_0_r.
  - unfold mbind, M_bind.
    rewrite add_faces_Ret
      by (by auto using combinations_NoDup, combinations_comparable).
    rewrite IH.
    + rewrite faces_from_app, length_app, <-app_assoc.
      f_equal. symmetry. apply Nat.add_assoc.
    + apply Forall_app. split.
      * eapply Forall_impl; [exact Hold|]. intros f ?. simpl in *. lia.
      * eapply Forall_impl; [apply faces_from_oid|].
        intros f ?. simpl in *. lia.
Qed.

Lemma construct_simplex_tree_Ret elements h :
  NoDup elements → Simplex.comparable node_lt elements →
  Simplex.construct_simplex_tree (value:=value) node_lt elements h =
  (Ret (Simplex.faces_from h (Simplex.all_combinations elements)),
   h + (2 ^ length elements - 1)).
Proof.
  intros Hnd Hc. unfold Simplex.construct_simplex_tree. cbv zeta.
  rewrite add_sizes_Ret by (done || constructor).
  unfold Simplex.all_combinations. by rewrite combinations_total.
Qed.

(** A duplicate-free collection gives a simplex; with the tree, which
    sorts the nodes of every face, its faces are the ones listed by
    [faces_from]. *)
Lemma simplex_init_Ret elements name ct attr h :
  NoDup elements → (ct = true → Simplex.comparable node_lt elements) →
  Simplex.init node_lt elements name ct attr h =
  if ct
  then (Ret (Simplex.mk h (default "" name) true (list_to_set elements)
               (Simplex.faces_from (S h)
                  (Simplex.all_combinations elements)) attr),
        S h + (2 ^ length elements - 1))
  else (Ret (Simplex.mk h (default "" name) false (list_to_set elements)
               [] attr), S h).
Proof.
  intros Hnd Hc. unfold Simplex.init. rewrite init_with_NoDup by done.
  destruct ct; [|done]. by rewrite construct_simplex_tree_Ret by auto.
Qed.

(** What a returned instance tells about the call. *)
Lemma simplex_init_inv elements name ct attr h h' s :
  Simplex.init node_lt elements name ct attr h = (Ret s, h') →
  NoDup elements
  ∧ Simplex.oid s = h
  ∧ Simplex.construct_tree s = ct
  ∧ Simplex.nodes s = list_to_set elements
  ∧ Simplex.properties s = attr.
Proof.
  intros Hs. destruct (decide (NoDup elements)) as [Hnd|Hdup].
  - split; [done|]. unfold Simplex.init in Hs.
    rewrite init_with_NoDup in Hs by done.
    destruct ((if ct
               then Simplex.construct_simplex_tree node_lt elements
               else mret []) (S h)) as [[fs|e] h1]; by simplify_eq.
  - unfold Simplex.init in Hs. by rewrite init_with_duplicates in Hs.
Qed.

(** ** Nodes that cannot be compared *)

(** The inner loop raises when the sort of one combination does. *)
Lemma add_faces_Raise faceset (combos : list (list node)) h face :
  Forall NoDup combos → face ∈ combos →
  Simplex.sorted node_lt face = Raise TypeError →
  (foldM (Simplex.add_face node_lt) faceset combos h).1 = Raise TypeError.
Proof.
  revert faceset h.
  induction combos as [|c combos IH]; intros faceset h Hnd Hin Hraise.
  - by apply elem_of_nil in Hin.
  - apply Forall_cons in Hnd as [Hc Hnd]. simpl. unfold mbind, M_bind.
    pose proof (add_face_outcome faceset c h Hc) as Hout.
    destruct (Simplex.sorted node_lt c) as [l'|e] eqn:Hsort.
    + destruct Hout as [fs ->]. apply IH; [done| |done].
      apply elem_of_cons in Hin as [->|Hin]; [congruence|done].
    + by rewrite Hout.
Qed.

(** The inner loop returns or raises [TypeError]. *)
Lemma add_faces_outcome faceset (combos : list (list node)) h :
  Forall NoDup combos →
  (∃ fs h', foldM (Simplex.add_face node_lt) faceset combos h
            = (Ret fs, h'))
  ∨ (foldM (Simplex.add_face node_lt) faceset combos h).1
    = Raise TypeError.
Proof.
  revert faceset h.
  induction combos as [|c combos IH]; intros faceset h Hnd.
  - left. by eexists _, _.
  - apply Forall_cons in Hnd as [Hc Hnd]. simpl. unfold mbind, M_bind.
    pose proof (add_face_outcome faceset c h Hc) as Hout.
    destruct (Simplex.sorted node_lt c) as [l'|e] eqn:Hsort.
    + destruct Hout as [fs ->]. by apply IH.
    + right. by rewrite Hout.
Qed.

(** The outer loop raises when one combination of one size does. *)
Lemma add_sizes_Raise elements faceset (sizes : list nat) h r face :
  NoDup elements → r ∈ sizes → face ∈ combinations elements r →
  Simplex.sorted node_lt face = Raise TypeError →
  (foldM (λ faceset r,
            foldM (Simplex.add_face node_lt) faceset
              (combinations elements r))
         faceset sizes h).1 = Raise TypeError.
Proof.
  intros Hnd. revert faceset h.
  induction sizes as [|r' sizes IH]; intros faceset h Hr Hface Hraise.
  - by apply elem_of_nil in Hr.
  - simpl. unfold mbind, M_bind.
    destruct (add_faces_outcome faceset (combinations elements r') h)
      as [(fs & h' & Hfs)|Hfs]; [by apply combinations_NoDup| |].
    + rewrite Hfs. apply elem_of_cons in Hr as [->|Hr]; [|by apply IH].
      pose proof (add_faces_Raise faceset _ h face
                    (combinations_NoDup elements r' Hnd) Hface Hraise)
        as Hcontra.
      by rewrite Hfs in Hcontra.
    + destruct (foldM _ faceset (combinations elements r') h)
        as [[fs|e] h']; simpl in Hfs; [done|]. by simplify_eq.
Qed.

(** Two different members of a list, in the order the list has them. *)
Lemma sublist_pair l x y :
  x ∈ l → y ∈ l → x ≠ y →
  [x; y] `sublist_of` l ∨ [y; x] `sublist_of` l.
Proof.
  assert (∀ z l, z ∈ l → [z] `sublist_of` l) as Hone.
  { clear. intros z l Hz. induction Hz as [z l|z w l _ IH].
    - apply sublist_skip, sublist_nil_l.
    - by apply sublist_cons. }
  induction l as [|z l IH]; intros Hx Hy Hne; [by apply elem_of_nil in Hx|].
  apply elem_of_cons in Hx as [->|Hx], Hy as [->|Hy]; [done| | |].
  - left. by apply sublist_skip, Hone.
  - right. by apply sublist_skip, Hone.
  - destruct IH as [Hs|Hs]; [done..| |]; [left|right];
      by apply sublist_cons.
Qed.

(** The tree of a collection with two nodes that cannot be compared is
    not built: the sort of the face of these two raises, if no earlier
    one does. *)
Lemma construct_simplex_tree_Raise elements h x y :
  NoDup elements → x ∈ elements → y ∈ elements → x ≠ y →
  node_lt x y = None → node_lt y x = None →
  (Simplex.construct_simplex_tree (value:=value) node_lt elements h).1
  = Raise TypeError.
Proof.
  intros Hnd Hx Hy Hne Hxy Hyx. unfold Simplex.construct_simplex_tree.
  cbv zeta.
  assert (2 ∈ range_down (length elements)) as Hr.
  { unfold range_down. apply elem_of_reverse, elem_of_seq.
    assert ([x; y] ⊆+ elements) as Hsub.
    { apply NoDup_submseteq; [|set_solver].
      repeat constructor; set_solver. }
    apply submseteq_length in Hsub. simpl in Hsub. lia. }
  destruct (sublist_pair elements x y Hx Hy Hne) as [Hs|Hs].
  - apply (add_sizes_Raise elements [] _ h 2 [x; y]); [done|done| |].
    + by apply combinations_sublist.
    + by apply sorted_pair.
  - apply (add_sizes_Raise elements [] _ h 2 [y; x]); [done|done| |].
    + by apply combinations_sublist.
    + by apply sorted_pair.
Qed.

(** ** What the face set holds *)

Lemma faces_from_elem_of h (combos : list (list node)) f :
  f ∈ Simplex.faces_from (value:=value) h combos ↔
  ∃ i c, combos !! i = Some c ∧ f = Simplex.face_at (h + i) c.
Proof.
  revert h. induction combos as [|c combos IH]; intros h; simpl.
  - rewrite elem_of_nil. split; [done|]. by intros (i & c & ? & _).
  - rewrite elem_of_cons, IH. split.
    + intros [->|(i & c' & Hi & ->)].
      * exists 0, c. by rewrite Nat.add_0_r.
      * exists (S i), c'. split; [done|]. f_equal. lia.
    + intros ([|i] & c' & Hi & ->); simplify_eq/=.
      * left. by rewrite Nat.add_0_r.
      * right. exists i, c'. split; [done|]. f_equal. lia.
Qed.

Lemma faces_from_oids h (combos : list (list node)) :
  Simplex.oid <$> Simplex.faces_from (value:=value) h combos =
  seq h (length combos).
Proof.
  revert h. induction combos as [|c combos IH]; intros h; simpl; [done|].
  by rewrite IH.
Qed.

Lemma all_combinations_elem_of elements c :
  c ∈ Simplex.all_combinations elements ↔
  c `sublist_of` elements ∧ c ≠ [].
Proof.
  unfold Simplex.all_combinations.
  rewrite list_elem_of_In, in_concat. split.
  - intros (cs & Hcs%list_elem_of_In & Hc%list_elem_of_In).
    apply list_elem_of_fmap in Hcs as (r & -> & Hr).
    apply elem_of_reverse, elem_of_seq in Hr.
    apply combinations_sublist in Hc as [Hsub Hlen].
    split; [done|]. intros ->. simpl in Hlen. lia.
  - intros [Hsub Hne]. exists (combinations elements (length c)).
    rewrite <-!list_elem_of_In. split.
    + apply list_elem_of_fmap. exists (length c). split; [done|].
      apply elem_of_reverse, elem_of_seq.
      apply sublist_length in Hsub. destruct c; [done|]. simpl in *. lia.
    + by apply combinations_sublist.
Qed.

(** Every non-empty set of nodes is the node set of a face. *)
Lemma faces_cover elements h (X : gset node) :
  X ⊆ list_to_set elements → X ≠ ∅ →
  ∃ f, f ∈ Simplex.faces_from (value:=value) h
             (Simplex.all_combinations elements)
       ∧ Simplex.nodes f = X.
Proof.
  intros Hsub Hne.
  set (c := filter (λ x, x ∈ X) elements).
  assert (list_to_set c = X) as Hc.
  { apply set_eq. intros x. unfold c.
    rewrite elem_of_list_to_set, list_elem_of_filter.
    split; [naive_solver|]. intros Hx. split; [done|].
    apply Hsub in Hx. by apply elem_of_list_to_set in Hx. }
  assert (c ∈ Simplex.all_combinations elements) as Hin.
  { apply all_combinations_elem_of. split; [apply sublist_filter|].
    intros Hnil. apply Hne. by rewrite <-Hc, Hnil. }
  apply list_elem_of_lookup in Hin as [i Hi].
  exists (Simplex.face_at (h + i) c). split; [|done].
  apply faces_from_elem_of. eauto.
Qed.

(** And every face is a non-empty set of nodes of the simplex. *)
Lemma faces_within elements h f :
  f ∈ Simplex.faces_from (value:=value) h
        (Simplex.all_combinations elements) →
  Simplex.nodes f ⊆ list_to_set elements ∧ Simplex.nodes f ≠ ∅
  ∧ Simplex.construct_tree f = false.
Proof.
  intros (i & c & Hi & ->)%faces_from_elem_of.
  apply list_elem_of_lookup_2, all_combinations_elem_of in Hi as [Hsub Hne].
  simpl. split_and!; [|by destruct c; [|set_solver]|done].
  intros x. rewrite !elem_of_list_to_set. intros Hx.
  by eapply elem_of_sublist.
Qed.

Lemma filter_elem_of_ext l (c d : list node) :
  (∀ y, y ∈ l → y ∈ c ↔ y ∈ d) →
  filter (λ x, x ∈ c) l = filter (λ x, x ∈ d) l.
Proof.
  induction l as [|x l IH]; intros Hiff; [done|].
  rewrite !filter_cons. rewrite IH by (intros y ?; apply Hiff; by right).
  destruct (decide (x ∈ c)) as [Hc|Hc], (decide (x ∈ d)) as [Hd|Hd];
    try done; exfalso; apply (Hiff x) in Hc || apply (Hiff x) in Hd;
    done || left.
Qed.

(** A subsequence of a duplicate-free list is known by its members. *)
Lemma sublist_filter_eq l (c : list node) :
  NoDup l → c `sublist_of` l → filter (λ x, x ∈ c) l = c.
Proof.
  intros Hnd Hsub. induction Hsub as [|x c l Hsub IH|x c l Hsub IH].
  - done.
  - apply NoDup_cons in Hnd as [Hx Hnd].
    rewrite filter_cons_True by left. f_equal.
    rewrite (filter_elem_of_ext l (x :: c) c); [by apply IH|].
    intros y Hy. rewrite elem_of_cons.
    split; [|by right]. by intros [->|].
  - apply NoDup_cons in Hnd as [Hx Hnd].
    rewrite filter_cons_False; [by apply IH|].
    intros Hin. apply Hx. by eapply elem_of_sublist.
Qed.

Lemma all_combinations_NoDup elements :
  NoDup elements → NoDup (Simplex.all_combinations elements).
Proof.
  intros Hnd. apply concat_NoDup_by_length.
  - unfold range_down. rewrite reverse_Permutation. apply NoDup_seq.
  - intros r. by apply combinations_NoDup_list.
  - by intros r c [_ Hlen]%combinations_sublist.
Qed.

(** No two faces have the same nodes. *)
Lemma faces_distinct elements h f g :
  NoDup elements →
  f ∈ Simplex.faces_from (value:=value) h
        (Simplex.all_combinations elements) →
  g ∈ Simplex.faces_from (value:=value) h
        (Simplex.all_combinations elements) →
  Simplex.nodes f = Simplex.nodes g → f = g.
Proof.
  intros Hnd (i & c & Hi & ->)%faces_from_elem_of
    (j & d & Hj & ->)%faces_from_elem_of Hnodes.
  simpl in Hnodes.
  assert (c = d) as <-.
  { pose proof Hi as [Hc _]%list_elem_of_lookup_2%all_combinations_elem_of.
    pose proof Hj as [Hd _]%list_elem_of_lookup_2%all_combinations_elem_of.
    rewrite <-(sublist_filter_eq elements c), <-(sublist_filter_eq elements d)
      by done.
    apply list_filter_iff. intros x.
    by rewrite <-!(elem_of_list_to_set (C:=gset node)), Hnodes. }
  pose proof (all_combinations_NoDup elements Hnd) as Hcs.
  by rewrite (proj1 (NoDup_alt _) Hcs i j c Hi Hj).
Qed.

End simplex_facts.

(** ** Faces, identity and membership *)

Section simplex_claims.
Context `{Countable node} {value : Type}.
Variable node_lt : node → node → option bool.
Implicit Types (l elements : list node) (x y : node).
Implicit Types (attr : gmap string value) (h : heap).
Implicit Types (s f g : Simplex.t (node:=node) (value:=value)).

Lemma boundary_filter s f :
  f ∈ List.filter (Simplex.codimension_one s) (Simplex._faces s) →
  Simplex.len f + 1 = Simplex.len s.
Proof.
  intros [_ Hcod]%list_elem_of_In%filter_In.
  unfold Simplex.codimension_one in Hcod.
  apply bool_decide_eq_true in Hcod. lia.
Qed.

(** C8. A simplex built with its tree from [n] nodes without duplicates
    has a face set of [2^n - 1] members, all different objects: every
    member's nodes are a non-empty subset of the simplex's nodes, every
    non-empty subset (the full node set among them) is the node set of a
    member, and of one only.  Every member of the boundary has [n - 1]
    nodes.  The tree is built when the nodes can be compared with one
    another, as they always can under a total order. *)
Theorem faces_count elements name attr h :
  NoDup elements → Simplex.comparable node_lt elements →
  ∃ s h' fs bd,
    Simplex.init node_lt elements name true attr h = (Ret s, h')
    ∧ Simplex.len s = length elements
    ∧ Simplex.faces node_lt s h' = (Ret fs, h')
    ∧ NoDup (Simplex.oid <$> fs)
    ∧ length fs = 2 ^ length elements - 1
    ∧ (∀ X : gset node,
         (∃ f, f ∈ fs ∧ Simplex.nodes f = X) ↔ X ⊆ Simplex.nodes s ∧ X ≠ ∅)
    ∧ (∀ f g, f ∈ fs → g ∈ fs → Simplex.nodes f = Simplex.nodes g → f = g)
    ∧ Simplex.boundary node_lt s h' = (Ret bd, h')
    ∧ (∀ f, f ∈ bd → Simplex.len f + 1 = length elements).
Proof.
  intros Hnd Hc. rewrite simplex_init_Ret by done.
  set (fs := Simplex.faces_from (S h) (Simplex.all_combinations elements)).
  set (s := Simplex.mk h _ true _ fs attr).
  assert (Simplex.len s = length elements) as Hlen.
  { by apply size_list_to_set. }
  exists s, (S h + (2 ^ length elements - 1)), fs,
    (List.filter (Simplex.codimension_one s) fs).
  split_and!; try done.
  - unfold fs. rewrite faces_from_oids. apply NoDup_seq.
  - unfold fs. rewrite faces_from_length. apply combinations_total.
  - intros X. split.
    + intros (f & Hf & <-). by apply faces_within in Hf as (? & ? & _).
    + intros [Hsub Hne]. by apply faces_cover.
  - intros f g. by apply faces_distinct.
  - intros f Hf. rewrite <-Hlen. by apply boundary_filter.
Qed.

Lemma simplex_init_some elements name ct attr h :
  NoDup elements → (ct = true → Simplex.comparable node_lt elements) →
  ∃ s h',
    Simplex.init node_lt elements name ct attr h = (Ret s, h')
    ∧ Simplex.oid s = h ∧ Simplex.nodes s = list_to_set elements ∧ h < h'.
Proof.
  intros Hnd Hc. rewrite simplex_init_Ret by done.
  destruct ct; eexists _, _; (split; [reflexivity|]); simpl;
    split_and!; try done; lia.
Qed.

(** C1 (amended).  [Simplex] defines neither [__eq__] nor [__hash__], so
    instances are compared and hashed by identity.  The two instances
    built from two permutations of the same duplicate-free nodes have the
    same node set, yet they are two objects: they compare unequal, their
    hashes differ, and a set they are added to keeps both.  An instance
    is equal to itself only.  Where a tree is asked for, the instances
    are built when the nodes can be compared with one another, as they
    always can under a total order. *)
Theorem simplex_equality_is_identity l1 l2 name1 name2 ct1 ct2 attr1 attr2 h :
  NoDup l1 →
  (ct1 = true ∨ ct2 = true → Simplex.comparable node_lt l1) →
  l1 ≡ₚ l2 →
  ∃ s1 h1,
    Simplex.init node_lt l1 name1 ct1 attr1 h = (Ret s1, h1)
    ∧ ∀ h', h1 ≤ h' →
      ∃ s2 h2,
        Simplex.init node_lt l2 name2 ct2 attr2 h' = (Ret s2, h2)
        ∧ Simplex.nodes s1 = Simplex.nodes s2
        ∧ Simplex.eq s1 s2 = false
        ∧ Simplex.hash s1 ≠ Simplex.hash s2
        ∧ Simplex.set_add s2 (Simplex.set_add s1 []) = [s1; s2]
        ∧ (∀ s, Simplex.eq s1 s = true ↔ Simplex.oid s = Simplex.oid s1).
Proof.
  intros Hnd1 Hc1 Hperm.
  assert (NoDup l2) as Hnd2 by (by rewrite <-Hperm).
  assert (ct2 = true → Simplex.comparable node_lt l2) as Hc2.
  { intros Hct. eapply comparable_subseteq; [|apply Hc1; by right].
    intros x. by rewrite Hperm. }
  destruct (simplex_init_some l1 name1 ct1 attr1 h Hnd1)
    as (s1 & h1 & Hs1 & Hoid1 & Hnodes1 & Hh1); [by intros; apply Hc1; left|].
  exists s1, h1. split; [done|]. intros h' Hh'.
  destruct (simplex_init_some l2 name2 ct2 attr2 h' Hnd2 Hc2)
    as (s2 & h2 & Hs2 & Hoid2 & Hnodes2 & _).
  exists s2, h2. split; [done|].
  assert (Simplex.eq s1 s2 = false) as Hneq.
  { unfold Simplex.eq. apply bool_decide_eq_false. lia. }
  split_and!.
  - by rewrite Hnodes1, Hnodes2, Hperm.
  - done.
  - unfold Simplex.hash. lia.
  - rewrite (set_add_fresh s1 []) by constructor. simpl.
    rewrite (set_add_fresh s2 [s1]); [done|].
    repeat constructor. lia.
  - intros s. unfold Simplex.eq. rewrite bool_decide_eq_true. naive_solver.
Qed.

End simplex_claims.

(** ** Membership *)

Section simplex_membership.
Context `{Countable node} {value : Type}.
Variable frozenset_node : gset node → option node.
Implicit Types (x y : node) (s : Simplex.t (node:=node) (value:=value)).

(** C2 (amended).  A collection of length 1, a frozenset or another
    one, whose one item is a node of the simplex is in the simplex; a
    sized collection of any other length is not, whatever it holds, a
    subset of the nodes too, and nothing is raised. *)
Theorem contains_collection s :
  (∀ x,
     x ∈ Simplex.nodes s →
     Simplex.contains frozenset_node s (Simplex.Sized [Simplex.Hashable x])
     = Ret true
     ∧ Simplex.contains frozenset_node s (Simplex.Frozenset {[x]})
       = Ret true)
  ∧ (∀ items,
       length items ≠ 1 →
       Simplex.contains frozenset_node s (Simplex.Sized items) = Ret false)
  ∧ (∀ X : gset node,
       size X ≠ 1 →
       Simplex.contains frozenset_node s (Simplex.Frozenset X) = Ret false).
Proof.
  unfold Simplex.contains. split_and!.
  - intros x Hx. rewrite bool_decide_eq_false_2.
    + rewrite size_singleton. simpl.
      split; f_equal; apply bool_decide_eq_true; set_solver.
    + intros Hsize%size_empty_inv. set_solver.
  - intros items Hlen. case_bool_decide; [done|].
    by rewrite bool_decide_eq_true_2.
  - intros X Hsize. case_bool_decide; [done|].
    by rewrite bool_decide_eq_true_2.
Qed.

(** A hashable object that is not iterable is looked up as the frozenset
    holding it, among the nodes: the answer is [True] exactly when that
    frozenset is itself a node, whether the object is a node or not. *)
Lemma contains_bare_node s x :
  Simplex.contains frozenset_node s (Simplex.Scalar x) = Ret true ↔
  ∃ fs, frozenset_node {[x]} = Some fs ∧ fs ∈ Simplex.nodes s.
Proof.
  unfold Simplex.contains. case_bool_decide as Hsize.
  - apply size_empty_inv in Hsize. split; [done|].
    intros (fs & _ & Hfs). set_solver.
  - destruct (frozenset_node {[x]}) as [fs|].
    + split.
      * intros [= Hin%bool_decide_eq_true]. eauto.
      * intros (fs' & [= <-] & Hin). by rewrite bool_decide_eq_true_2.
    + split; [done|]. by intros (fs & ? & _).
Qed.

End simplex_membership.

(** ** The theorems above on integers *)

Lemma NoDup_123 : NoDup [1; 2; 3]%Z.
Proof. apply (bool_decide_unpack _). by vm_compute. Qed.

(** Integers can be compared with one another. *)
Lemma comparable_int (l : list Z) : Simplex.comparable int_lt l.
Proof. apply comparable_total. intros x y. by eexists. Qed.

Lemma faces_count_witness :
  NoDup [1; 2; 3]%Z ∧ Simplex.comparable int_lt [1; 2; 3]%Z
  ∧ ∃ (s : Simplex.t (node:=Z) (value:=())) h' fs,
      Simplex.init int_lt [1; 2; 3]%Z None true ∅ 0 = (Ret s, h')
      ∧ Simplex.faces int_lt s h' = (Ret fs, h')
      ∧ length fs = 2 ^ 3 - 1.
Proof.
  split; [exact NoDup_123|]. split; [apply comparable_int|].
  destruct (faces_count (value:=()) int_lt [1; 2; 3]%Z None ∅ 0 NoDup_123
              (comparable_int _))
    as (s & h' & fs & bd & Hs & _ & Hfs & _ & Hlen & _).
  exists s, h', fs. split; [exact Hs|]. split; [exact Hfs|exact Hlen].
Defined.

(** C1, as first stated, fails: the instances built from [(1, 2)] and
    from [(2, 1)] are not equal, and a set keeps both. *)
Lemma simplex_permutations_differ :
  ∃ s1 s2 : Simplex.t (node:=Z) (value:=()),
    Simplex.init int_lt [1; 2]%Z None true ∅ 0 = (Ret s1, 4)
    ∧ Simplex.init int_lt [2; 1]%Z None true ∅ 4 = (Ret s2, 8)
    ∧ Simplex.nodes s1 = Simplex.nodes s2
    ∧ Simplex.eq s1 s2 = false
    ∧ Simplex.hash s1 ≠ Simplex.hash s2
    ∧ length (Simplex.set_add s2 (Simplex.set_add s1 [])) = 2.
Proof.
  eexists _, _. split; [vm_compute; reflexivity|].
  split; [vm_compute; reflexivity|].
  split; [by vm_compute|]. split; [by vm_compute|].
  split; [by vm_compute|]. by vm_compute.
Qed.

Lemma simplex_equality_is_identity_witness :
  NoDup [1; 2; 3]%Z
  ∧ (true = true ∨ true = true → Simplex.comparable int_lt [1; 2; 3]%Z)
  ∧ [1; 2; 3]%Z ≡ₚ [3; 1; 2]%Z
  ∧ ∃ (s1 s2 : Simplex.t (node:=Z) (value:=())) h1 h2,
      Simplex.init int_lt [1; 2; 3]%Z None true ∅ 0 = (Ret s1, h1)
      ∧ Simplex.init int_lt [3; 1; 2]%Z None true ∅ h1 = (Ret s2, h2)
      ∧ Simplex.nodes s1 = Simplex.nodes s2
      ∧ Simplex.eq s1 s2 = false.
Proof.
  assert ([1; 2; 3]%Z ≡ₚ [3; 1; 2]%Z) as Hperm.
  { change ([1; 2]%Z ++ [3%Z] ≡ₚ [3%Z] ++ [1; 2]%Z).
    apply Permutation_app_comm. }
  split; [exact NoDup_123|]. split; [intros _; apply comparable_int|].
  split; [exact Hperm|].
  destruct (simplex_equality_is_identity (value:=()) int_lt
              [1; 2; 3]%Z [3; 1; 2]%Z None None true true ∅ ∅ 0
              NoDup_123 (λ _, comparable_int _) Hperm)
    as (s1 & h1 & Hs1 & Hlater).
  destruct (Hlater h1 (le_n h1)) as (s2 & h2 & Hs2 & Hnodes & Hneq & _).
  exists s1, s2, h1, h2.
  split; [exact Hs1|]. split; [exact Hs2|]. split; [exact Hnodes|exact Hneq].
Defined.

(** C2, as first stated, fails: [frozenset({1, 2})] is a subset of the
    nodes of [Simplex((1, 2, 3))], and the simplex does not contain it. *)
Lemma contains_rejects_subset :
  ∃ s : Simplex.t (node:=Z) (value:=()),
    Simplex.init int_lt [1; 2; 3]%Z None true ∅ 0 = (Ret s, 8)
    ∧ size (Simplex.nodes s) ≠ 0
    ∧ list_to_set [1; 2]%Z ⊆ Simplex.nodes s
    ∧ Simplex.contains (λ _, None) s
        (Simplex.Frozenset (list_to_set [1; 2]%Z))
      = Ret false.
Proof.
  eexists. split; [vm_compute; reflexivity|].
  split; [by vm_compute|]. split; [|by vm_compute].
  apply (bool_decide_unpack _). by vm_compute.
Qed.

Lemma contains_collection_witness :
  ∃ s : Simplex.t (node:=Z) (value:=()),
    Simplex.init int_lt [1; 2; 3]%Z None true ∅ 0 = (Ret s, 8)
    ∧ 2%Z ∈ Simplex.nodes s
    ∧ Simplex.contains (λ _, None) s
        (Simplex.Sized [Simplex.Hashable 2%Z])
      = Ret true.
Proof.
  pose (s := Simplex.mk (value:=()) 0 "" true (list_to_set [1; 2; 3]%Z)
               (Simplex.faces_from 1 (Simplex.all_combinations [1; 2; 3]%Z))
               ∅).
  assert (2%Z ∈ Simplex.nodes s) as Hin.
  { simpl. set_solver. }
  exists s. split; [vm_compute; reflexivity|]. split; [exact Hin|].
  exact (proj1 (proj1 (contains_collection (λ _, None) s) 2%Z Hin)).
Defined.

(** * Further properties of the two classes *)

Section further_properties.
Context `{Countable node} {value : Type}.
Variable node_lt : node → node → option bool.
Implicit Types (elements : list node) (attr : gmap string value) (h : heap).

(** X2. A collection with a duplicate node is refused with [ValueError],
    with or without the tree. *)
Theorem simplex_init_duplicates elements name ct attr h :
  ¬ NoDup elements →
  Simplex.init node_lt elements name ct attr h = (Raise ValueError, S h).
Proof. intros Hdup. by apply init_with_duplicates. Qed.

(** X3. The boundary of a constructed cell is the list of the edges
    [(elements[i], elements[(i+1) mod n])] in order: it has as many edges
    as the cell has elements, and in a regular cell no two edges start at
    the same node. *)
Theorem boundary_spec elements name regular attr h h'
    (c : Cell.t (node:=node) (value:=value)) :
  Cell.init elements name regular attr h = (Ret c, h') →
  Cell.elements c = elements
  ∧ Cell.boundary c = Cell.cyclic_edges elements
  ∧ length (Cell.boundary c) = length elements
  ∧ (∀ i a b, Cell.boundary c !! i = Some (a, b) ↔
       elements !! i = Some a
       ∧ elements !! ((i + 1) `mod` length elements) = Some b)
  ∧ (regular = true → NoDup (Cell.boundary c).*1).
Proof.
  intros (Hlen & -> & -> & Hv)%init_Ret. simpl.
  split_and!; [done|done|apply cyclic_edges_length| |].
  - intros i a b. apply cyclic_edges_lookup.
  - intros ->. by apply valid_regular_spec in Hv as [Hnd _].
Qed.

(** X4. [Cell((1,1,2))] is refused whatever the regularity flag: node 1
    is a repeated source and [(1,1)] is a self-loop. *)
Theorem init_112_refused name regular attr h :
  Cell.init [1; 1; 2]%Z name regular attr h = (Raise ValueError, S h).
Proof. rewrite init_long by (simpl; lia). by destruct regular. Qed.

End further_properties.

Lemma simplex_init_duplicates_witness :
  ¬ NoDup [1; 1]%Z
  ∧ Simplex.init (value:=()) int_lt [1; 1]%Z None true ∅ 0
    = (Raise ValueError, 1).
Proof.
  assert (¬ NoDup [1; 1]%Z) as Hdup.
  { intros Hnd. apply NoDup_cons in Hnd as [Hnin _]. apply Hnin. left. }
  split; [exact Hdup|].
  exact (simplex_init_duplicates int_lt [1; 1]%Z None true ∅ 0 Hdup).
Defined.

Lemma boundary_spec_witness :
  ∃ c : Cell.t (node:=Z) (value:=()),
    Cell.init [1; 2; 3]%Z "" true ∅ 0 = (Ret c, 1)
    ∧ Cell.boundary c = [(1, 2); (2, 3); (3, 1)]%Z.
Proof.
  pose (c := Cell.mk (value:=()) 0 (Cell.Atom_init [1; 2; 3]%Z "" ∅) true
                 [(1, 2); (2, 3); (3, 1)]%Z).
  assert (Cell.init [1; 2; 3]%Z "" true ∅ 0 = (Ret c, 1)) as Hc.
  { vm_compute. reflexivity. }
  exists c. split; [exact Hc|].
  destruct (boundary_spec [1; 2; 3]%Z "" true ∅ 0 1 c Hc) as (_ & Hb & _).
  rewrite Hb. reflexivity.
Defined.

(** * More of [Cell]: regularity, copies, orientation and homotopy *)

Section cell_more.
Context `{Countable node} {value : Type}.
Implicit Types (l elements : list node) (edges : list (node * node)).
Implicit Types (a b x y : node) (attr : gmap string value) (h : heap).
Implicit Types (c : Cell.t (node:=node) (value:=value)).

(** X5. On a constructed cell [is_regular] tells whether the elements are
    pairwise distinct, that is, whether the regular construction accepts
    them: a cell built with [regular=True] answers [True], and one built
    with [regular=False] answers [True] exactly when the same elements
    can be built with [regular=True]. *)
Theorem is_regular_spec elements name regular attr h h' c :
  Cell.init elements name regular attr h = (Ret c, h') →
  (Cell.is_regular c = true ↔ NoDup elements)
  ∧ (Cell.is_regular c = true ↔
     ∃ c', Cell.init elements name true attr h = (Ret c', S h))
  ∧ (regular = true → Cell.is_regular c = true).
Proof.
  intros (Hlen & -> & -> & Hv)%init_Ret.
  assert (Cell.valid_regular ∅ (Cell.cyclic_edges elements) = true
          ↔ NoDup elements) as Hnd.
  { rewrite valid_regular_spec, cyclic_edges_sources. split; [tauto|].
    intros Hnd. split; [done|]. intros x _. rewrite dom_empty.
    apply not_elem_of_empty. }
  assert (Cell.is_regular
            (Cell.mk h (Cell.Atom_init elements name attr) regular
               (Cell.cyclic_edges elements)) = true ↔ NoDup elements)
    as Hreg.
  { unfold Cell.is_regular. simpl. destruct regular; [|done].
    split; [by intros _; apply Hnd|done]. }
  split_and!; [done| |].
  - rewrite Hreg, <-Hnd, init_long by done. split.
    + intros ->. eauto.
    + intros [c' Hc']. by destruct (Cell.valid_regular _ _).
  - intros ->. apply Hreg. by apply Hnd.
Qed.

(** X6. [clone] on a constructed cell returns a cell, a new object with
    the elements, name, regularity flag, properties and boundary of the
    original; the original is homotopic to it. *)
Theorem clone_spec elements name regular attr h0 h1 h c :
  Cell.init elements name regular attr h0 = (Ret c, h1) →
  h1 ≤ h →
  ∃ c', Cell.clone c h = (Ret c', S h)
        ∧ Cell.elements c' = Cell.elements c
        ∧ Cell.name c' = Cell.name c
        ∧ Cell._regular c' = Cell._regular c
        ∧ Cell._properties c' = Cell._properties c
        ∧ Cell.boundary c' = Cell.boundary c
        ∧ Cell.oid c' ≠ Cell.oid c
        ∧ Cell.is_homotopic_to c (Cell.ArgCell c') (S h) = (Ret true, S h).
Proof.
  intros Hinit Hh.
  destruct (init_Ret _ _ _ _ _ _ _ Hinit) as (Hlen & -> & -> & Hv).
  unfold Cell.clone.
  cbn [Cell.elements Cell.name Cell._regular Cell._properties Cell.base
       Cell.Atom_init Cell.atom_elements Cell.atom_name
       Cell.atom_properties].
  rewrite init_long, Hv by done. eexists. split; [done|].
  split_and!; try done; [simpl; lia|].
  set (c := Cell.mk h0 _ _ _). set (c' := Cell.mk h _ _ _).
  destruct (are_homotopic_spec c (Cell.ArgCell c') elements eq_refl)
    as (b & Hb & Hiff).
  { simpl. by destruct elements. }
  unfold Cell.is_homotopic_to. unfold mbind at 1. unfold M_bind, lift.
  rewrite Hb. replace b with true; [done|].
  symmetry. apply Hiff. exists 0. unfold rotate. simpl.
  rewrite Nat.Div0.mod_0_l. simpl. by rewrite app_nil_r.
Qed.


(** ** Orientation under reversal and rotation *)

Lemma sign_congruence c1 c2 (swap : bool) :
  (∀ a b, (a, b) ∈ Cell.boundary c1 ↔
          (if swap then (b, a) else (a, b)) ∈ Cell.boundary c2) →
  ∀ items, Cell.sign c1 (Cell.Items items) =
           Cell.sign c2 (Cell.Items (if swap then reverse items else items)).
Proof.
  intros Hbd items. destruct (decide (length items = 2)) as [Hlen|Hlen].
  - destruct items as [|a [|b [|d items]]]; try done.
    replace (if swap then reverse [a; b] else [a; b])
      with (if swap then [b; a] else [a; b]) by (by destruct swap).
    cbn [Cell.sign]. specialize (Hbd a b) as Hab. specialize (Hbd b a) as Hba.
    destruct swap; cbn [Cell.sign];
      by rewrite (bool_decide_ext _ _ Hab), (bool_decide_ext _ _ Hba).
  - rewrite !sign_arity; [done| |done].
    destruct swap; by rewrite ?length_reverse.
Qed.

(** X7. Reversing a cell reverses its orientation: the sign of an edge
    with respect to [c.reverse()] is the sign (or the failure) of the
    opposite edge with respect to [c].  So an edge of sign [+1] whose
    opposite is not in the boundary has sign [-1] after the reversal. *)
Theorem sign_reverse elements name regular attr h0 h1 h c :
  Cell.init elements name regular attr h0 = (Ret c, h1) →
  ∃ r, Cell.reverse c h = (Ret r, S h)
       ∧ (∀ a b, (a, b) ∈ Cell.boundary r ↔ (b, a) ∈ Cell.boundary c)
       ∧ (∀ items, Cell.sign r (Cell.Items items) =
                   Cell.sign c (Cell.Items (reverse items)))
       ∧ (∀ a b, (a, b) ∈ Cell.boundary c → (b, a) ∉ Cell.boundary c →
                 Cell.sign c (Cell.Items [a; b]) = Ret 1%Z
                 ∧ Cell.sign r (Cell.Items [a; b]) = Ret (-1)%Z).
Proof.
  intros Hinit. pose proof (reverse_Ret _ _ _ _ _ _ h _ Hinit) as Hrev.
  destruct (init_Ret _ _ _ _ _ _ _ Hinit) as (Hlen & -> & -> & Hv).
  eexists. split; [exact Hrev|].
  set (c := Cell.mk h0 _ _ _). set (r := Cell.mk h _ _ _).
  assert (∀ a b, (a, b) ∈ Cell.boundary r ↔ (b, a) ∈ Cell.boundary c)
    as Hbd by (intros a b; apply cyclic_edges_reverse).
  split_and!; [done|apply (sign_congruence r c true Hbd)|].
  intros a b Hin Hnin. split; [by apply sign_forward|].
  apply sign_backward; by rewrite Hbd.
Qed.

Lemma rotation_lookup (xs ys : list node) i :
  i < length xs + length ys →
  (ys ++ xs) !! ((i + length ys) `mod` (length xs + length ys))
  = (xs ++ ys) !! i.
Proof.
  intros Hi. destruct (decide (i < length xs)) as [Hlt|Hge].
  - rewrite Nat.mod_small by lia.
    rewrite lookup_app_r, lookup_app_l by lia. f_equal. lia.
  - replace (i + length ys)
      with (i - length xs + 1 * (length xs + length ys)) by lia.
    rewrite Nat.Div0.mod_add, Nat.mod_small by lia.
    by rewrite lookup_app_l, lookup_app_r by lia.
Qed.

(** A rotation of the elements keeps the boundary edges. *)
Lemma cyclic_edges_rotation (l1 l2 : list node) e :
  Cell.cyclic_rotation l1 l2 →
  e ∈ Cell.cyclic_edges l1 ↔ e ∈ Cell.cyclic_edges l2.
Proof.
  assert (∀ (xs ys : list node) e,
    e ∈ Cell.cyclic_edges (xs ++ ys) → e ∈ Cell.cyclic_edges (ys ++ xs))
    as Hone.
  { clear. intros xs ys [a b] [i Hi]%list_elem_of_lookup.
    apply cyclic_edges_lookup in Hi as [Ha Hb].
    rewrite length_app in Hb.
    assert (i < length xs + length ys) as Hlt.
    { apply lookup_lt_Some in Ha. by rewrite length_app in Ha. }
    assert ((i + 1) `mod` (length xs + length ys) < length xs + length ys)
      as Hlt' by (apply Nat.mod_upper_bound; lia).
    apply list_elem_of_lookup.
    exists ((i + length ys) `mod` (length xs + length ys)).
    apply cyclic_edges_lookup. rewrite length_app.
    rewrite (Nat.add_comm (length ys) (length xs)).
    split.
    - by rewrite rotation_lookup.
    - rewrite <-Hb, <-(rotation_lookup xs ys) by done.
      f_equal.
      rewrite (Nat.Div0.add_mod_idemp_l (i + 1)).
      rewrite (Nat.Div0.add_mod_idemp_l (i + length ys)).
      f_equal. lia. }
  intros (xs & ys & -> & ->)%cyclic_rotation_split. split; apply Hone.
Qed.

(** X8. The sign of an edge does not depend on where the cyclic sequence
    starts: two constructed cells whose element sequences are rotations
    of one another have the same boundary edges, and [sign] gives the
    same result, or the same failure, on every argument. *)
Theorem sign_rotation elements1 name1 regular1 attr1 h1 h1' c1
    elements2 name2 regular2 attr2 h2 h2' c2 :
  Cell.init elements1 name1 regular1 attr1 h1 = (Ret c1, h1') →
  Cell.init elements2 name2 regular2 attr2 h2 = (Ret c2, h2') →
  Cell.cyclic_rotation elements1 elements2 →
  (∀ e, e ∈ Cell.boundary c1 ↔ e ∈ Cell.boundary c2)
  ∧ (∀ edge, Cell.sign c1 edge = Cell.sign c2 edge).
Proof.
  intros (_ & _ & -> & _)%init_Ret (_ & _ & -> & _)%init_Ret Hrot.
  set (c1 := Cell.mk h1 _ _ _). set (c2 := Cell.mk h2 _ _ _).
  assert (∀ e, e ∈ Cell.boundary c1 ↔ e ∈ Cell.boundary c2) as Hbd.
  { intros e. by apply cyclic_edges_rotation. }
  split; [done|]. intros [| |items]; [done..|].
  apply (sign_congruence c1 c2 false). intros a b. apply Hbd.
Qed.

End cell_more.

(** ** Homotopy is an equivalence *)

Section cell_homotopy_more.
Context `{Countable node} {value : Type}.
Implicit Types (elements seq : list node) (attr : gmap string value).
Implicit Types (h : heap) (c : Cell.t (node:=node) (value:=value)).

Lemma cyclic_rotation_iter (l1 l2 : list node) :
  Cell.cyclic_rotation l1 l2 ↔ ∃ i, Nat.iter i deque_rotate l1 = l2.
Proof.
  rewrite cyclic_rotation_split. split.
  - intros (xs & ys & -> & ->). exists (length ys). apply deque_rotate_iter.
  - intros [i <-]. apply deque_rotate_iter_split.
Qed.

Lemma cyclic_rotation_refl (l : list node) : Cell.cyclic_rotation l l.
Proof. apply cyclic_rotation_iter. by exists 0. Qed.

Lemma cyclic_rotation_trans (l1 l2 l3 : list node) :
  Cell.cyclic_rotation l1 l2 → Cell.cyclic_rotation l2 l3 →
  Cell.cyclic_rotation l1 l3.
Proof.
  rewrite !cyclic_rotation_iter. intros [i <-] [j <-].
  exists (j + i). apply Nat.iter_add.
Qed.

Lemma cyclic_rotation_reverse_both (l1 l2 : list node) :
  Cell.cyclic_rotation l1 l2 →
  Cell.cyclic_rotation (reverse l1) (reverse l2).
Proof.
  intros Hrot. apply cyclic_rotation_reverse.
  by rewrite reverse_involutive.
Qed.

(** The relation [is_homotopic_to] decides on element sequences. *)
Lemma homotopic_refl (l : list node) :
  Cell.cyclic_rotation l l ∨ Cell.cyclic_rotation l (reverse l).
Proof. left. apply cyclic_rotation_refl. Qed.

Lemma homotopic_sym (l1 l2 : list node) :
  Cell.cyclic_rotation l1 l2 ∨ Cell.cyclic_rotation l1 (reverse l2) →
  Cell.cyclic_rotation l2 l1 ∨ Cell.cyclic_rotation l2 (reverse l1).
Proof.
  intros [Hrot|Hrot].
  - left. by apply cyclic_rotation_sym.
  - right. by apply cyclic_rotation_reverse, cyclic_rotation_sym.
Qed.

Lemma homotopic_trans (l1 l2 l3 : list node) :
  Cell.cyclic_rotation l1 l2 ∨ Cell.cyclic_rotation l1 (reverse l2) →
  Cell.cyclic_rotation l2 l3 ∨ Cell.cyclic_rotation l2 (reverse l3) →
  Cell.cyclic_rotation l1 l3 ∨ Cell.cyclic_rotation l1 (reverse l3).
Proof.
  intros [H12|H12] [H23|H23].
  - left. by eapply cyclic_rotation_trans.
  - right. by eapply cyclic_rotation_trans.
  - right. eapply cyclic_rotation_trans; [exact H12|].
    by apply cyclic_rotation_reverse_both.
  - left. eapply cyclic_rotation_trans; [exact H12|].
    apply cyclic_rotation_reverse_both in H23.
    by rewrite reverse_involutive in H23.
Qed.

Lemma is_homotopic_to_true elements name regular attr h0 h1 h c cell seq :
  Cell.init elements name regular attr h0 = (Ret c, h1) →
  Cell.seq_of cell = Ret seq →
  (Cell.is_homotopic_to c cell h).1 = Ret true ↔
  Cell.cyclic_rotation elements seq
  ∨ Cell.cyclic_rotation elements (reverse seq).
Proof.
  intros Hinit Hseq.
  destruct (is_homotopic_to_Ret _ _ _ _ _ _ h _ _ _ Hinit Hseq)
    as (b & h' & Hb & Hiff).
  apply init_Ret in Hinit as (_ & _ & -> & _). simpl in Hiff.
  rewrite Hb, <-Hiff. simpl. split; [by intros [= ->]|by intros ->].
Qed.

(** X9. A constructed cell is homotopic to itself and to its reversal,
    and its reversal is homotopic to it. *)
Theorem homotopic_reflexive elements name regular attr h0 h1 h c :
  Cell.init elements name regular attr h0 = (Ret c, h1) →
  Cell.is_homotopic_to c (Cell.ArgCell c) h = (Ret true, h)
  ∧ ∃ r, Cell.reverse c h = (Ret r, S h)
         ∧ (Cell.is_homotopic_to c (Cell.ArgCell r) (S h)).1 = Ret true
         ∧ (Cell.is_homotopic_to r (Cell.ArgCell c) (S h)).1 = Ret true.
Proof.
  intros Hinit. pose proof (reverse_Ret _ _ _ _ _ _ h _ Hinit) as Hrev.
  pose proof (init_Ret _ _ _ _ _ _ _ Hinit) as (Hlen & -> & Hc & Hv).
  assert (Cell.elements c = elements) as Hel by (by subst c).
  split.
  - destruct (are_homotopic_spec c (Cell.ArgCell c) elements)
      as (b & Hb & Hiff); [by rewrite <-Hel|by rewrite Hel; destruct elements|].
    unfold Cell.is_homotopic_to. unfold mbind at 1. unfold M_bind, lift.
    rewrite Hb. replace b with true; [done|].
    symmetry. apply Hiff. rewrite Hel. apply cyclic_rotation_refl.
  - eexists. split; [exact Hrev|]. split.
    + apply (is_homotopic_to_true _ _ _ _ _ _ (S h) _ _ (reverse elements)
               Hinit); [done|].
      right. rewrite reverse_involutive. apply cyclic_rotation_refl.
    + eapply (is_homotopic_to_true (reverse elements) name regular attr h
                _ _ _ _ elements).
      * rewrite init_long by (by rewrite length_reverse).
        rewrite valid_regular_reverse, valid_no_self_loop_reverse, Hv.
        reflexivity.
      * by rewrite <-Hel.
      * right. apply cyclic_rotation_refl.
Qed.

(** X10. Homotopy is symmetric: [a.is_homotopic_to(b)] and
    [b.is_homotopic_to(a)] agree on constructed cells. *)
Theorem homotopic_symmetric
    elements1 name1 regular1 attr1 h1 h1' (c1 : Cell.t (value:=value))
    elements2 name2 regular2 attr2 h2 h2' (c2 : Cell.t (value:=value))
    h h' :
  Cell.init elements1 name1 regular1 attr1 h1 = (Ret c1, h1') →
  Cell.init elements2 name2 regular2 attr2 h2 = (Ret c2, h2') →
  (Cell.is_homotopic_to c1 (Cell.ArgCell c2) h).1 = Ret true ↔
  (Cell.is_homotopic_to c2 (Cell.ArgCell c1) h').1 = Ret true.
Proof.
  intros Hc1 Hc2.
  pose proof (init_Ret _ _ _ _ _ _ _ Hc1) as (_ & _ & Hel1 & _).
  pose proof (init_Ret _ _ _ _ _ _ _ Hc2) as (_ & _ & Hel2 & _).
  rewrite (is_homotopic_to_true _ _ _ _ _ _ h _ _ elements2 Hc1)
    by (by subst c2).
  rewrite (is_homotopic_to_true _ _ _ _ _ _ h' _ _ elements1 Hc2)
    by (by subst c1).
  split; apply homotopic_sym.
Qed.

(** X11. Homotopy is transitive on constructed cells. *)
Theorem homotopic_transitive
    elements1 name1 regular1 attr1 h1 h1' (c1 : Cell.t (value:=value))
    elements2 name2 regular2 attr2 h2 h2' (c2 : Cell.t (value:=value))
    elements3 name3 regular3 attr3 h3 h3' (c3 : Cell.t (value:=value))
    h12 h23 h13 :
  Cell.init elements1 name1 regular1 attr1 h1 = (Ret c1, h1') →
  Cell.init elements2 name2 regular2 attr2 h2 = (Ret c2, h2') →
  Cell.init elements3 name3 regular3 attr3 h3 = (Ret c3, h3') →
  (Cell.is_homotopic_to c1 (Cell.ArgCell c2) h12).1 = Ret true →
  (Cell.is_homotopic_to c2 (Cell.ArgCell c3) h23).1 = Ret true →
  (Cell.is_homotopic_to c1 (Cell.ArgCell c3) h13).1 = Ret true.
Proof.
  intros Hc1 Hc2 Hc3.
  pose proof (init_Ret _ _ _ _ _ _ _ Hc2) as (_ & _ & Hel2 & _).
  pose proof (init_Ret _ _ _ _ _ _ _ Hc3) as (_ & _ & Hel3 & _).
  rewrite (is_homotopic_to_true _ _ _ _ _ _ h12 _ _ elements2 Hc1)
    by (by subst c2).
  rewrite (is_homotopic_to_true _ _ _ _ _ _ h23 _ _ elements3 Hc2)
    by (by subst c3).
  rewrite (is_homotopic_to_true _ _ _ _ _ _ h13 _ _ elements3 Hc1)
    by (by subst c3).
  apply homotopic_trans.
Qed.

End cell_homotopy_more.

(** * More of [Simplex]: lazy faces, the boundary, properties, iteration *)

Section combinations_more.
Context {A : Type}.
Implicit Types (l c : list A) (r k m : nat).

Lemma combinations_short l r : length l < r → combinations l r = [].
Proof.
  revert r. induction l as [|x l IH]; intros [|r] Hr; simpl in *;
    [lia|done|lia|].
  by rewrite !IH by lia.
Qed.

Lemma combinations_full l : combinations l (length l) = [l].
Proof.
  induction l as [|x l IH]; simpl; [done|].
  by rewrite IH, combinations_short by lia.
Qed.

Lemma combinations_all_but_one l :
  l ≠ [] → length (combinations l (length l - 1)) = length l.
Proof.
  induction l as [|x l IH]; intros Hne; [done|].
  cbn [length]. replace (S (length l) - 1) with (length l) by lia.
  destruct l as [|y l]; [done|].
  change (combinations (x :: y :: l) (length (y :: l)))
    with ((cons x <$> combinations (y :: l) (length l))
          ++ combinations (y :: l) (S (length l))).
  rewrite length_app, length_fmap.
  replace (length l) with (length (y :: l) - 1) at 1 by (simpl; lia).
  rewrite IH by done.
  change (S (length l)) with (length (y :: l)).
  rewrite combinations_full. simpl. lia.
Qed.

Lemma filter_by_length (cs : list (list A)) r k :
  Forall (λ c, length c = r) cs →
  List.filter (λ c, length c =? k) cs = if decide (r = k) then cs else [].
Proof.
  induction 1 as [|c cs Hc _ IH]; simpl; [by case_decide|].
  rewrite IH, Hc. case_decide as Hrk.
  - by rewrite (proj2 (Nat.eqb_eq r k) Hrk).
  - by rewrite (proj2 (Nat.eqb_neq r k) Hrk).
Qed.

Lemma filter_combinations_range l k m :
  length (List.filter (λ c, length c =? k)
            (concat (combinations l <$> range_down m)))
  = if bool_decide (1 ≤ k ≤ m) then length (combinations l k) else 0.
Proof.
  induction m as [|m IH].
  - simpl. case_bool_decide; [lia|done].
  - rewrite range_down_S, fmap_cons. cbn [concat].
    rewrite List.filter_app, length_app, IH.
    rewrite (filter_by_length _ (S m)).
    2:{ apply Forall_forall. by intros c [_ ?]%combinations_sublist. }
    destruct (decide (S m = k)) as [Hk|Hk]; repeat case_bool_decide; subst;
      cbn [length]; lia.
Qed.

End combinations_more.

Section simplex_more.
Context `{Countable node} {value : Type}.
Variable node_lt : node → node → option bool.
Implicit Types (l els : list node) (x y : node).
Implicit Types (attr : gmap string value) (h : heap).
Implicit Types (s f g : Simplex.t (node:=node) (value:=value)).

(** ** Faces built on demand *)

Lemma faces_lazy s h :
  Simplex.construct_tree s = false →
  Simplex.comparable node_lt (elements (Simplex.nodes s)) →
  Simplex.faces node_lt s h =
  (Ret (Simplex.faces_from h
          (Simplex.all_combinations (elements (Simplex.nodes s)))),
   h + (2 ^ Simplex.len s - 1)).
Proof.
  intros Hct Hc. unfold Simplex.faces. rewrite Hct.
  rewrite construct_simplex_tree_Ret by (apply NoDup_elements || done).
  done.
Qed.

(** X12. A simplex built without its tree, from nodes that can be
    compared with one another, stores no face and builds them at each
    access of [faces]: every access gives [2^n - 1] members, one for each
    non-empty subset of the nodes, and they are new objects each time, so
    no member of one access is equal to a member of a later one. *)
Theorem faces_on_demand els name attr h :
  NoDup els → Simplex.comparable node_lt els →
  ∃ s, Simplex.init node_lt els name false attr h = (Ret s, S h)
    ∧ Simplex._faces s = []
    ∧ ∀ h1, ∃ fs1,
        Simplex.faces node_lt s h1
        = (Ret fs1, h1 + (2 ^ length els - 1))
        ∧ length fs1 = 2 ^ length els - 1
        ∧ (∀ X : gset node,
             (∃ f, f ∈ fs1 ∧ Simplex.nodes f = X)
             ↔ X ⊆ Simplex.nodes s ∧ X ≠ ∅)
        ∧ ∀ h2, h1 + (2 ^ length els - 1) ≤ h2 →
          ∃ fs2,
            Simplex.faces node_lt s h2
            = (Ret fs2, h2 + (2 ^ length els - 1))
            ∧ ∀ f1 f2, f1 ∈ fs1 → f2 ∈ fs2 → Simplex.eq f1 f2 = false.
Proof.
  intros Hnd Hc. rewrite simplex_init_Ret by done.
  set (s := Simplex.mk h _ false _ [] attr).
  assert (Simplex.len s = length els) as Hlen
    by (by apply size_list_to_set).
  assert (length (elements (Simplex.nodes s)) = length els) as Hlen'
    by done.
  assert (Simplex.comparable node_lt (elements (Simplex.nodes s))) as Hcs
    by (by apply comparable_elements).
  exists s. split; [done|]. split; [done|]. intros h1.
  eexists. split; [by rewrite faces_lazy, Hlen|].
  split.
  { rewrite faces_from_length. unfold Simplex.all_combinations.
    by rewrite combinations_total, Hlen'. }
  split.
  { intros X.
    pose proof (list_to_set_elements_L (Simplex.nodes s)) as Hset.
    split.
    - intros (f & Hf & <-). apply (faces_within node_lt) in Hf as (Hsub & ? & _).
      rewrite Hset in Hsub. by split.
    - intros [Hsub Hne]. apply faces_cover; [|done]. by rewrite Hset. }
  intros h2 Hh2. eexists. split; [by rewrite faces_lazy, Hlen|].
  intros f1 f2 Hf1 Hf2.
  pose proof (faces_from_oid (value:=value) h1
                (Simplex.all_combinations (elements (Simplex.nodes s))))
    as Ho1.
  pose proof (faces_from_oid (value:=value) h2
                (Simplex.all_combinations (elements (Simplex.nodes s))))
    as Ho2.
  rewrite Forall_forall in Ho1, Ho2.
  apply Ho1 in Hf1. apply Ho2 in Hf2.
  unfold Simplex.all_combinations in Hf1.
  rewrite combinations_total, Hlen' in Hf1.
  unfold Simplex.eq. apply bool_decide_eq_false. lia.
Qed.

(** ** The boundary *)

Lemma codimension_one_face_at s h c :
  NoDup c → 1 ≤ Simplex.len s →
  Simplex.codimension_one s (Simplex.face_at (value:=value) h c)
  = (length c =? Simplex.len s - 1).
Proof.
  intros Hc Hs.
  assert (Simplex.len (Simplex.face_at (value:=value) h c) = length c)
    as Hlen by (by apply size_list_to_set).
  unfold Simplex.codimension_one. rewrite Hlen.
  destruct (Nat.eqb_spec (length c) (Simplex.len s - 1)).
  - apply bool_decide_eq_true. lia.
  - apply bool_decide_eq_false. lia.
Qed.

Lemma boundary_filter_length s h (combos : list (list node)) :
  Forall NoDup combos → 1 ≤ Simplex.len s →
  length (List.filter (Simplex.codimension_one s)
            (Simplex.faces_from h combos))
  = length (List.filter (λ c, length c =? Simplex.len s - 1) combos).
Proof.
  intros Hnd Hs. revert h.
  induction Hnd as [|c combos Hc _ IH]; intros h; simpl; [done|].
  rewrite codimension_one_face_at by done.
  destruct (length c =? _); simpl; by rewrite IH.
Qed.

Lemma all_combinations_Forall_NoDup l :
  NoDup l → Forall NoDup (Simplex.all_combinations l).
Proof.
  intros Hnd. apply Forall_forall.
  intros c [Hsub _]%all_combinations_elem_of. by eapply sublist_NoDup.
Qed.

(** The boundary filter over the faces of [l], when [l] lists the nodes
    of [s] without duplicates. *)
Lemma boundary_of_faces s h l :
  NoDup l → Simplex.nodes s = list_to_set l →
  let bd := List.filter (Simplex.codimension_one s)
              (Simplex.faces_from h (Simplex.all_combinations l)) in
  length bd = (if bool_decide (2 ≤ length l) then length l else 0)
  ∧ (∀ X : gset node,
       (∃ f, f ∈ bd ∧ Simplex.nodes f = X)
       ↔ X ≠ ∅ ∧ ∃ x, x ∈ Simplex.nodes s ∧ X = Simplex.nodes s ∖ {[x]})
  ∧ (∀ f g, f ∈ bd → g ∈ bd → Simplex.nodes f = Simplex.nodes g → f = g).
Proof.
  intros Hnd Hnodes bd.
  assert (Simplex.len s = length l) as Hlen.
  { unfold Simplex.len. rewrite Hnodes. by apply size_list_to_set. }
  assert (∀ f, f ∈ bd ↔
            f ∈ Simplex.faces_from h (Simplex.all_combinations l)
            ∧ Simplex.len f + 1 = Simplex.len s) as Hbd.
  { intros f. unfold bd. rewrite list_elem_of_In, filter_In, <-list_elem_of_In.
    unfold Simplex.codimension_one. rewrite bool_decide_eq_true. split.
    - intros [? ?]. split; [done|lia].
    - intros [? ?]. split; [done|lia]. }
  split_and!.
  - destruct (decide (l = [])) as [->|Hne]; [done|].
    assert (1 ≤ length l) as Hpos by (destruct l; [done|simpl; lia]).
    unfold bd. rewrite boundary_filter_length;
      [|by apply all_combinations_Forall_NoDup|by rewrite Hlen].
    unfold Simplex.all_combinations.
    rewrite filter_combinations_range, Hlen.
    repeat case_bool_decide; try lia.
    by apply combinations_all_but_one.
  - intros X. split.
    + intros (f & [Hf Hsize]%Hbd & <-).
      apply (faces_within node_lt) in Hf as (Hsub & Hne & _). split; [done|].
      rewrite <-Hnodes in Hsub.
      assert (size (Simplex.nodes s ∖ Simplex.nodes f) = 1) as Hone.
      { rewrite size_difference by done. unfold Simplex.len in Hsize. lia. }
      apply size_1_elem_of in Hone as [x Hx]. exists x.
      apply leibniz_equiv in Hx. split; [set_solver|].
      apply set_eq. intros y. destruct (decide (y ∈ Simplex.nodes f));
        set_solver.
    + intros (Hne & x & Hx & ->).
      destruct (faces_cover (value:=value) l h (Simplex.nodes s ∖ {[x]}))
        as (f & Hf & Hfn); [rewrite <-Hnodes; set_solver|done|].
      exists f. split; [|done]. apply Hbd. split; [done|].
      unfold Simplex.len. rewrite Hfn, size_difference by set_solver.
      rewrite size_singleton.
      assert (size (Simplex.nodes s) ≠ 0); [|lia].
      intros Hz%size_empty_inv. set_solver.
  - intros f g [Hf _]%Hbd [Hg _]%Hbd. by apply (faces_distinct l h).
Qed.

(** X13. The boundary of a simplex built from [n] nodes without
    duplicates that can be compared with one another, with its tree or
    without: for [n >= 2] it has exactly [n] members, one for each node,
    whose nodes are all the nodes but that one; for [n <= 1] it is empty
    (a single node has no boundary face, the empty face not being
    built). *)
Theorem boundary_count els name ct attr h :
  NoDup els → Simplex.comparable node_lt els →
  ∃ s h' bd h'',
    Simplex.init node_lt els name ct attr h = (Ret s, h')
    ∧ Simplex.boundary node_lt s h' = (Ret bd, h'')
    ∧ length bd
      = (if bool_decide (2 ≤ length els) then length els else 0)
    ∧ (∀ X : gset node,
         (∃ f, f ∈ bd ∧ Simplex.nodes f = X)
         ↔ X ≠ ∅ ∧ ∃ x, x ∈ Simplex.nodes s ∧ X = Simplex.nodes s ∖ {[x]})
    ∧ (∀ f g, f ∈ bd → g ∈ bd → Simplex.nodes f = Simplex.nodes g → f = g).
Proof.
  intros Hnd Hc. rewrite simplex_init_Ret by done. destruct ct.
  - set (s := Simplex.mk h _ true _ _ attr).
    exists s, (S h + (2 ^ length els - 1)),
      (List.filter (Simplex.codimension_one s) (Simplex._faces s)),
      (S h + (2 ^ length els - 1)).
    split; [done|]. split; [done|].
    by apply (boundary_of_faces s (S h) els).
  - set (s := Simplex.mk h _ false _ _ attr).
    exists s, (S h).
    exists (List.filter (Simplex.codimension_one s)
              (Simplex.faces_from (S h)
                 (Simplex.all_combinations (elements (Simplex.nodes s))))).
    exists (S h + (2 ^ length (elements (Simplex.nodes s)) - 1)).
    split; [done|]. split.
    { unfold Simplex.boundary. cbn [Simplex.construct_tree s].
      unfold mbind, M_bind.
      by rewrite construct_simplex_tree_Ret
        by (apply NoDup_elements || by apply comparable_elements). }
    assert (length (elements (Simplex.nodes s)) = length els) as Hlen.
    { change (size (Simplex.nodes s) = length els).
      by apply size_list_to_set. }
    rewrite <-Hlen.
    apply (boundary_of_faces s (S h) (elements (Simplex.nodes s))).
    + apply NoDup_elements.
    + by rewrite list_to_set_elements_L.
Qed.

(** X17. The stored tree is closed under taking faces, by node set but
    not by object: a member [f] of [s.faces] is a simplex without tree,
    so [f.faces] builds its members anew; each of them has the nodes of
    some member of [s.faces], and none of them is (by identity, which is
    what [in] tests on the face set) a member of [s.faces]. *)
Theorem faces_closed els name attr h :
  NoDup els → Simplex.comparable node_lt els →
  ∃ s h' fs,
    Simplex.init node_lt els name true attr h = (Ret s, h')
    ∧ Simplex.faces node_lt s h' = (Ret fs, h')
    ∧ ∀ f, f ∈ fs →
        Simplex.construct_tree f = false
        ∧ Simplex._faces f = []
        ∧ ∀ h1, ∃ gs,
            Simplex.faces node_lt f h1
            = (Ret gs, h1 + (2 ^ Simplex.len f - 1))
            ∧ length gs = 2 ^ Simplex.len f - 1
            ∧ (∀ g, g ∈ gs → ∃ f', f' ∈ fs
                                   ∧ Simplex.nodes f' = Simplex.nodes g)
            ∧ (h' ≤ h1 →
               ∀ g f', g ∈ gs → f' ∈ fs → Simplex.eq g f' = false).
Proof.
  intros Hnd Hc. rewrite simplex_init_Ret by done.
  eexists _, _, _. split; [reflexivity|]. split; [reflexivity|].
  cbn [Simplex._faces]. intros f Hf.
  pose proof (faces_within node_lt _ _ _ Hf) as (Hsub & Hne & Hct).
  assert (Simplex._faces f = []) as Hnone.
  { apply faces_from_elem_of in Hf as (i & c & _ & ->). done. }
  assert (Simplex.comparable node_lt (elements (Simplex.nodes f))) as Hcf.
  { eapply comparable_subseteq; [|exact Hc]. intros x Hx.
    apply elem_of_elements, Hsub in Hx. by apply elem_of_list_to_set in Hx. }
  split; [done|]. split; [done|]. intros h1.
  rewrite faces_lazy by done. eexists. split; [reflexivity|].
  split.
  { rewrite faces_from_length. unfold Simplex.all_combinations.
    by rewrite combinations_total. }
  split.
  - intros g (Hg & Hgne & _)%(faces_within node_lt).
    rewrite list_to_set_elements_L in Hg.
    apply faces_cover; [set_solver|done].
  - intros Hh1 g f' Hg Hf'.
    pose proof (faces_from_oid (value:=value) h1
                  (Simplex.all_combinations (elements (Simplex.nodes f))))
      as Ho1.
    pose proof (faces_from_oid (value:=value) (S h)
                  (Simplex.all_combinations els)) as Ho2.
    rewrite Forall_forall in Ho1, Ho2.
    apply Ho1 in Hg. apply Ho2 in Hf'.
    unfold Simplex.all_combinations in Hf'.
    rewrite combinations_total in Hf'.
    unfold Simplex.eq. apply bool_decide_eq_false. lia.
Qed.

(** ** Properties and iteration *)

(** X14. Item access on a constructed simplex: reading a key gives the
    keyword value the simplex was constructed with, and raises [KeyError]
    for a key that is not among them; after an assignment reading the key
    gives the assigned value, also when the key was new or had another
    value, while the other keys, the nodes, the stored faces and the
    identity of the simplex stay as they were. *)
Theorem getitem_setitem els name ct attr h h' s key item :
  Simplex.init node_lt els name ct attr h = (Ret s, h') →
  (∀ k, Simplex.getitem s k
        = match attr !! k with Some v => Ret v | None => Raise KeyError end)
  ∧ Simplex.getitem (Simplex.setitem s key item) key = Ret item
  ∧ (∀ k, k ≠ key →
       Simplex.getitem (Simplex.setitem s key item) k = Simplex.getitem s k)
  ∧ Simplex.nodes (Simplex.setitem s key item) = Simplex.nodes s
  ∧ Simplex._faces (Simplex.setitem s key item) = Simplex._faces s
  ∧ Simplex.eq (Simplex.setitem s key item) s = true.
Proof.
  intros Hs.
  assert (Simplex.properties s = attr) as Hattr
    by (by apply simplex_init_inv in Hs as (_ & _ & _ & _ & ?)).
  unfold Simplex.getitem, Simplex.setitem. simpl. split_and!.
  - intros k. by rewrite Hattr.
  - by rewrite lookup_insert_eq.
  - intros k Hne. by rewrite lookup_insert_ne.
  - done.
  - done.
  - unfold Simplex.eq. by apply bool_decide_eq_true.
Qed.

(** X16. Iterating a constructed simplex yields the nodes it was built
    from, each once, in some order; [len] is their number. *)
Theorem iter_spec els name ct attr h h' s :
  Simplex.init node_lt els name ct attr h = (Ret s, h') →
  Simplex.iter s ≡ₚ els
  ∧ NoDup (Simplex.iter s)
  ∧ length (Simplex.iter s) = Simplex.len s
  ∧ Simplex.len s = length els.
Proof.
  intros (Hnd & _ & _ & Hnodes & _)%simplex_init_inv.
  unfold Simplex.iter, Simplex.len. rewrite Hnodes. split_and!.
  - by apply elements_list_to_set.
  - apply NoDup_elements.
  - done.
  - by apply size_list_to_set.
Qed.

(** ** Nodes that cannot be compared *)

(** X18. When two of the nodes, different from one another, do not
    support [<] between them, in either order, the tree cannot be built:
    the construction with [construct_tree=True] raises [TypeError] and
    gives no instance.  The construction without the tree sorts nothing
    and succeeds; on that instance every access of [faces] and of
    [boundary] raises [TypeError]. *)
Theorem faces_unorderable els name attr h x y :
  NoDup els → x ∈ els → y ∈ els → x ≠ y →
  node_lt x y = None → node_lt y x = None →
  (Simplex.init node_lt els name true attr h).1 = Raise TypeError
  ∧ ∃ s, Simplex.init node_lt els name false attr h = (Ret s, S h)
         ∧ Simplex.nodes s = list_to_set els
         ∧ ∀ h1, (Simplex.faces node_lt s h1).1 = Raise TypeError
                 ∧ (Simplex.boundary node_lt s h1).1 = Raise TypeError.
Proof.
  intros Hnd Hx Hy Hne Hxy Hyx. split.
  - unfold Simplex.init. rewrite init_with_NoDup by done.
    pose proof (construct_simplex_tree_Raise (value:=value) node_lt
                  els (S h) x y Hnd Hx Hy Hne Hxy Hyx) as Hraise.
    destruct (Simplex.construct_simplex_tree node_lt els (S h))
      as [[fs|e] h']; simpl in Hraise; by simplify_eq.
  - rewrite simplex_init_Ret by done. eexists. split; [reflexivity|].
    split; [done|]. intros h1.
    assert ((Simplex.construct_simplex_tree (value:=value) node_lt
               (elements (list_to_set (C:=gset node) els)) h1).1
            = Raise TypeError) as Hraise.
    { apply (construct_simplex_tree_Raise node_lt _ h1 x y); try done;
        apply NoDup_elements || set_solver. }
    unfold Simplex.faces, Simplex.boundary.
    cbn [Simplex.construct_tree Simplex.nodes]. unfold mbind, M_bind.
    destruct (Simplex.construct_simplex_tree node_lt
                (elements (list_to_set els)) h1) as [[fs|e] h'];
      simpl in *; by simplify_eq.
Qed.

End simplex_more.

Section simplex_empty.
Context `{Countable node} {value : Type}.
Variable node_lt : node → node → option bool.
Variable frozenset_node : gset node → option node.

(** X15. The empty simplex is constructed, with its tree or without:
    it has no face and no boundary face, and contains nothing, every
    membership test answering [False], also on a candidate without
    length, on which a non-empty simplex raises [TypeError]. *)
Theorem empty_simplex name ct attr h :
  ∃ s : Simplex.t (node:=node) (value:=value),
    Simplex.init node_lt [] name ct attr h = (Ret s, S h)
    ∧ Simplex.len s = 0
    ∧ (∀ h1, Simplex.faces node_lt s h1 = (Ret [], h1))
    ∧ (∀ h1, Simplex.boundary node_lt s h1 = (Ret [], h1))
    ∧ (∀ e, Simplex.contains frozenset_node s e = Ret false)
    ∧ (∀ s' : Simplex.t (node:=node) (value:=value),
         Simplex.len s' ≠ 0 →
         Simplex.contains frozenset_node s' Simplex.Unsized
         = Raise TypeError).
Proof.
  destruct ct; (eexists; split; [reflexivity|]); split_and!; try done;
    intros s' Hs'; unfold Simplex.contains;
    by rewrite bool_decide_eq_false_2.
Qed.

End simplex_empty.

Section simplex_single_item.
Context `{Countable node} {value : Type}.
Variable frozenset_node : gset node → option node.
Implicit Types (x : node) (s : Simplex.t (node:=node) (value:=value)).

(** X19. On a simplex that is not empty, a candidate of length 1 is
    judged by its one item: a frozenset, a list or a tuple holding one
    hashable object is in the simplex exactly when that object is a node,
    and a list or a tuple holding one object that is not hashable raises
    [TypeError], the item being put in a frozenset. *)
Theorem contains_single_item s :
  Simplex.len s ≠ 0 →
  (∀ x, Simplex.contains frozenset_node s
          (Simplex.Sized [Simplex.Hashable x])
        = Ret (bool_decide (x ∈ Simplex.nodes s)))
  ∧ (∀ x, Simplex.contains frozenset_node s (Simplex.Frozenset {[x]})
          = Ret (bool_decide (x ∈ Simplex.nodes s)))
  ∧ Simplex.contains frozenset_node s (Simplex.Sized [Simplex.Unhashable])
    = Raise TypeError.
Proof.
  intros Hlen. unfold Simplex.contains.
  rewrite (bool_decide_eq_false_2 (size (Simplex.nodes s) = 0)) by done.
  split_and!.
  - intros x. simpl. f_equal. apply bool_decide_ext. set_solver.
  - intros x. rewrite size_singleton. simpl. f_equal.
    apply bool_decide_ext. set_solver.
  - done.
Qed.

End simplex_single_item.

(** * Examples for the additional properties *)

(** [Cell((1,2,3), regular=False).is_regular] is [True]. *)
Lemma is_regular_spec_witness :
  ∃ c : Cell.t (node:=Z) (value:=()),
    Cell.init [1; 2; 3]%Z "" false ∅ 0 = (Ret c, 1)
    ∧ Cell.is_regular c = true.
Proof.
  pose (c := Cell.mk (value:=()) 0 (Cell.Atom_init [1; 2; 3]%Z "" ∅) false
                 (Cell.cyclic_edges [1; 2; 3]%Z)).
  assert (Cell.init [1; 2; 3]%Z "" false ∅ 0 = (Ret c, 1)) as Hc.
  { vm_compute. reflexivity. }
  exists c. split; [exact Hc|].
  exact (proj2 (proj1 (is_regular_spec [1; 2; 3]%Z "" false ∅ 0 1 c Hc))
           NoDup_123).
Defined.

(** [Cell((1,2,3)).clone()] has the elements [(1,2,3)]. *)
Lemma clone_spec_witness :
  ∃ c c' : Cell.t (node:=Z) (value:=()),
    Cell.init [1; 2; 3]%Z "t" true ∅ 0 = (Ret c, 1)
    ∧ Cell.clone c 1 = (Ret c', 2)
    ∧ Cell.elements c' = [1; 2; 3]%Z
    ∧ Cell.oid c' ≠ Cell.oid c.
Proof.
  pose (c := Cell.mk (value:=()) 0 (Cell.Atom_init [1; 2; 3]%Z "t" ∅) true
                 (Cell.cyclic_edges [1; 2; 3]%Z)).
  assert (Cell.init [1; 2; 3]%Z "t" true ∅ 0 = (Ret c, 1)) as Hc.
  { vm_compute. reflexivity. }
  destruct (clone_spec [1; 2; 3]%Z "t" true ∅ 0 1 1 c Hc (le_n 1))
    as (c' & Hc' & Hel & _ & _ & _ & _ & Hoid & _).
  exists c, c'. split; [exact Hc|]. split; [exact Hc'|].
  split; [exact Hel|exact Hoid].
Defined.

(** [Cell((1,2,3)).reverse().sign((1,2)) == -1]. *)
Lemma sign_reverse_witness :
  ∃ c r : Cell.t (node:=Z) (value:=()),
    Cell.init [1; 2; 3]%Z "" true ∅ 0 = (Ret c, 1)
    ∧ Cell.reverse c 1 = (Ret r, 2)
    ∧ Cell.sign c (Cell.Items [1; 2]%Z) = Ret 1%Z
    ∧ Cell.sign r (Cell.Items [1; 2]%Z) = Ret (-1)%Z.
Proof.
  pose (c := Cell.mk (value:=()) 0 (Cell.Atom_init [1; 2; 3]%Z "" ∅) true
                 [(1, 2); (2, 3); (3, 1)]%Z).
  assert (Cell.init [1; 2; 3]%Z "" true ∅ 0 = (Ret c, 1)) as Hc.
  { vm_compute. reflexivity. }
  destruct (sign_reverse [1; 2; 3]%Z "" true ∅ 0 1 1 c Hc)
    as (r & Hr & _ & _ & Hsign).
  exists c, r. split; [exact Hc|]. split; [exact Hr|].
  apply Hsign.
  - apply list_elem_of_In. simpl. tauto.
  - rewrite list_elem_of_In. simpl. intuition congruence.
Defined.

(** [Cell((1,2,3))] and [Cell((2,3,1))] give the same sign to [(1,3)]. *)
Lemma sign_rotation_witness :
  ∃ c1 c2 : Cell.t (node:=Z) (value:=()),
    Cell.init [1; 2; 3]%Z "" true ∅ 0 = (Ret c1, 1)
    ∧ Cell.init [2; 3; 1]%Z "" true ∅ 1 = (Ret c2, 2)
    ∧ Cell.cyclic_rotation [1; 2; 3]%Z [2; 3; 1]%Z
    ∧ Cell.sign c1 (Cell.Items [1; 3]%Z) = Cell.sign c2 (Cell.Items [1; 3]%Z).
Proof.
  pose (c1 := Cell.mk (value:=()) 0 (Cell.Atom_init [1; 2; 3]%Z "" ∅) true
                  [(1, 2); (2, 3); (3, 1)]%Z).
  pose (c2 := Cell.mk (value:=()) 1 (Cell.Atom_init [2; 3; 1]%Z "" ∅) true
                  [(2, 3); (3, 1); (1, 2)]%Z).
  assert (Cell.init [1; 2; 3]%Z "" true ∅ 0 = (Ret c1, 1)) as Hc1.
  { vm_compute. reflexivity. }
  assert (Cell.init [2; 3; 1]%Z "" true ∅ 1 = (Ret c2, 2)) as Hc2.
  { vm_compute. reflexivity. }
  assert (Cell.cyclic_rotation [1; 2; 3]%Z [2; 3; 1]%Z) as Hrot.
  { exists 1. vm_compute. reflexivity. }
  exists c1, c2. split; [exact Hc1|]. split; [exact Hc2|].
  split; [exact Hrot|].
  apply (sign_rotation _ _ _ _ _ _ _ _ _ _ _ _ _ _ Hc1 Hc2 Hrot).
Defined.

(** [Cell((1,2,3))] is homotopic to itself. *)
Lemma homotopic_reflexive_witness :
  ∃ c : Cell.t (node:=Z) (value:=()),
    Cell.init [1; 2; 3]%Z "" true ∅ 0 = (Ret c, 1)
    ∧ Cell.is_homotopic_to c (Cell.ArgCell c) 1 = (Ret true, 1).
Proof.
  pose (c := Cell.mk (value:=()) 0 (Cell.Atom_init [1; 2; 3]%Z "" ∅) true
                 [(1, 2); (2, 3); (3, 1)]%Z).
  assert (Cell.init [1; 2; 3]%Z "" true ∅ 0 = (Ret c, 1)) as Hc.
  { vm_compute. reflexivity. }
  exists c. split; [exact Hc|].
  apply (homotopic_reflexive [1; 2; 3]%Z "" true ∅ 0 1 1 c Hc).
Defined.

(** [Cell((1,2,3))] and [Cell((3,2,1))] are homotopic, either way. *)
Lemma homotopic_symmetric_witness :
  ∃ c1 c2 : Cell.t (node:=Z) (value:=()),
    Cell.init [1; 2; 3]%Z "" true ∅ 0 = (Ret c1, 1)
    ∧ Cell.init [3; 2; 1]%Z "" true ∅ 1 = (Ret c2, 2)
    ∧ (Cell.is_homotopic_to c1 (Cell.ArgCell c2) 2).1 = Ret true
    ∧ (Cell.is_homotopic_to c2 (Cell.ArgCell c1) 3).1 = Ret true.
Proof.
  pose (c1 := Cell.mk (value:=()) 0 (Cell.Atom_init [1; 2; 3]%Z "" ∅) true
                  [(1, 2); (2, 3); (3, 1)]%Z).
  pose (c2 := Cell.mk (value:=()) 1 (Cell.Atom_init [3; 2; 1]%Z "" ∅) true
                  [(3, 2); (2, 1); (1, 3)]%Z).
  assert (Cell.init [1; 2; 3]%Z "" true ∅ 0 = (Ret c1, 1)) as Hc1.
  { vm_compute. reflexivity. }
  assert (Cell.init [3; 2; 1]%Z "" true ∅ 1 = (Ret c2, 2)) as Hc2.
  { vm_compute. reflexivity. }
  assert ((Cell.is_homotopic_to c1 (Cell.ArgCell c2) 2).1 = Ret true)
    as H12 by (vm_compute; reflexivity).
  exists c1, c2. split; [exact Hc1|]. split; [exact Hc2|].
  split; [exact H12|].
  apply (homotopic_symmetric _ _ _ _ _ _ c1 _ _ _ _ _ _ c2 2 3 Hc1 Hc2).
  exact H12.
Defined.

(** [Cell((1,2,3))], [Cell((3,2,1))] and [Cell((2,1,3))]. *)
Lemma homotopic_transitive_witness :
  ∃ c1 c2 c3 : Cell.t (node:=Z) (value:=()),
    Cell.init [1; 2; 3]%Z "" true ∅ 0 = (Ret c1, 1)
    ∧ Cell.init [3; 2; 1]%Z "" true ∅ 1 = (Ret c2, 2)
    ∧ Cell.init [2; 1; 3]%Z "" true ∅ 2 = (Ret c3, 3)
    ∧ (Cell.is_homotopic_to c1 (Cell.ArgCell c2) 3).1 = Ret true
    ∧ (Cell.is_homotopic_to c2 (Cell.ArgCell c3) 4).1 = Ret true
    ∧ (Cell.is_homotopic_to c1 (Cell.ArgCell c3) 5).1 = Ret true.
Proof.
  pose (c1 := Cell.mk (value:=()) 0 (Cell.Atom_init [1; 2; 3]%Z "" ∅) true
                  [(1, 2); (2, 3); (3, 1)]%Z).
  pose (c2 := Cell.mk (value:=()) 1 (Cell.Atom_init [3; 2; 1]%Z "" ∅) true
                  [(3, 2); (2, 1); (1, 3)]%Z).
  pose (c3 := Cell.mk (value:=()) 2 (Cell.Atom_init [2; 1; 3]%Z "" ∅) true
                  [(2, 1); (1, 3); (3, 2)]%Z).
  assert (Cell.init [1; 2; 3]%Z "" true ∅ 0 = (Ret c1, 1)) as Hc1.
  { vm_compute. reflexivity. }
  assert (Cell.init [3; 2; 1]%Z "" true ∅ 1 = (Ret c2, 2)) as Hc2.
  { vm_compute. reflexivity. }
  assert (Cell.init [2; 1; 3]%Z "" true ∅ 2 = (Ret c3, 3)) as Hc3.
  { vm_compute. reflexivity. }
  assert ((Cell.is_homotopic_to c1 (Cell.ArgCell c2) 3).1 = Ret true)
    as H12 by (vm_compute; reflexivity).
  assert ((Cell.is_homotopic_to c2 (Cell.ArgCell c3) 4).1 = Ret true)
    as H23 by (vm_compute; reflexivity).
  exists c1, c2, c3. split; [exact Hc1|]. split; [exact Hc2|].
  split; [exact Hc3|]. split; [exact H12|]. split; [exact H23|].
  exact (homotopic_transitive _ _ _ _ _ _ c1 _ _ _ _ _ _ c2
           _ _ _ _ _ _ c3 3 4 5 Hc1 Hc2 Hc3 H12 H23).
Defined.

(** [Simplex((1,2,3), construct_tree=False)]: 7 faces at each access. *)
Lemma faces_on_demand_witness :
  NoDup [1; 2; 3]%Z ∧ Simplex.comparable int_lt [1; 2; 3]%Z
  ∧ ∃ (s : Simplex.t (node:=Z) (value:=())) fs,
      Simplex.init int_lt [1; 2; 3]%Z None false ∅ 0 = (Ret s, 1)
      ∧ Simplex._faces s = []
      ∧ Simplex.faces int_lt s 1 = (Ret fs, 1 + (2 ^ 3 - 1))
      ∧ length fs = 2 ^ 3 - 1.
Proof.
  split; [exact NoDup_123|]. split; [apply comparable_int|].
  destruct (faces_on_demand (value:=()) int_lt [1; 2; 3]%Z None ∅ 0
              NoDup_123 (comparable_int _)) as (s & Hs & Hnone & Hfaces).
  destruct (Hfaces 1) as (fs & Hfs & Hlen & _).
  exists s, fs. split; [exact Hs|]. split; [exact Hnone|].
  split; [exact Hfs|exact Hlen].
Defined.

(** The boundary of [Simplex((1,2,3))] has 3 members. *)
Lemma boundary_count_witness :
  NoDup [1; 2; 3]%Z ∧ Simplex.comparable int_lt [1; 2; 3]%Z
  ∧ ∃ (s : Simplex.t (node:=Z) (value:=())) h' bd h'',
      Simplex.init int_lt [1; 2; 3]%Z None true ∅ 0 = (Ret s, h')
      ∧ Simplex.boundary int_lt s h' = (Ret bd, h'')
      ∧ length bd = 3.
Proof.
  split; [exact NoDup_123|]. split; [apply comparable_int|].
  destruct (boundary_count (value:=()) int_lt [1; 2; 3]%Z None true ∅ 0
              NoDup_123 (comparable_int _))
    as (s & h' & bd & h'' & Hs & Hbd & Hlen & _).
  exists s, h', bd, h''. split; [exact Hs|]. split; [exact Hbd|].
  exact Hlen.
Defined.

(** The faces of [Simplex((1,2,3))] are simplices without tree. *)
Lemma faces_closed_witness :
  NoDup [1; 2; 3]%Z ∧ Simplex.comparable int_lt [1; 2; 3]%Z
  ∧ ∃ (s : Simplex.t (node:=Z) (value:=())) h' fs,
      Simplex.init int_lt [1; 2; 3]%Z None true ∅ 0 = (Ret s, h')
      ∧ Simplex.faces int_lt s h' = (Ret fs, h')
      ∧ ∀ f, f ∈ fs → Simplex.construct_tree f = false.
Proof.
  split; [exact NoDup_123|]. split; [apply comparable_int|].
  destruct (faces_closed (value:=()) int_lt [1; 2; 3]%Z None ∅ 0 NoDup_123
              (comparable_int _))
    as (s & h' & fs & Hs & Hfs & Hall).
  exists s, h', fs. split; [exact Hs|]. split; [exact Hfs|].
  intros f Hf. exact (proj1 (Hall f Hf)).
Defined.

(** [s = Simplex((1,2), weight=5); s["weight"] == 5], and after
    [s["weight"] = 7] it is [7]. *)
Lemma getitem_setitem_witness :
  ∃ s : Simplex.t (node:=Z) (value:=Z),
    Simplex.init int_lt [1; 2]%Z None false {["weight" := 5%Z]} 0
    = (Ret s, 1)
    ∧ Simplex.getitem s "weight" = Ret 5%Z
    ∧ Simplex.getitem s "colour" = Raise KeyError
    ∧ Simplex.getitem (Simplex.setitem s "weight" 7%Z) "weight" = Ret 7%Z.
Proof.
  pose (s := Simplex.mk (node:=Z) (value:=Z) 0 "" false
               (list_to_set [1; 2]%Z) [] {["weight" := 5%Z]}).
  assert (Simplex.init int_lt [1; 2]%Z None false {["weight" := 5%Z]} 0
          = (Ret s, 1)) as Hs.
  { vm_compute. reflexivity. }
  destruct (getitem_setitem int_lt [1; 2]%Z None false {["weight" := 5%Z]}
              0 1 s "weight" 7%Z Hs) as (Hget & Hset & _).
  exists s. split; [exact Hs|].
  split; [exact (Hget "weight")|].
  split; [exact (Hget "colour")|exact Hset].
Defined.

(** Iterating [Simplex((3,1,2))] yields a permutation of [3, 1, 2]. *)
Lemma iter_spec_witness :
  ∃ s : Simplex.t (node:=Z) (value:=()),
    Simplex.init int_lt [3; 1; 2]%Z None false ∅ 0 = (Ret s, 1)
    ∧ Simplex.iter s ≡ₚ [3; 1; 2]%Z
    ∧ Simplex.len s = 3.
Proof.
  pose (s := Simplex.mk (node:=Z) (value:=()) 0 "" false
               (list_to_set [3; 1; 2]%Z) [] ∅).
  assert (Simplex.init int_lt [3; 1; 2]%Z None false ∅ 0 = (Ret s, 1))
    as Hs.
  { vm_compute. reflexivity. }
  destruct (iter_spec int_lt [3; 1; 2]%Z None false ∅ 0 1 s Hs)
    as (Hperm & _ & _ & Hlen).
  exists s. split; [exact Hs|]. split; [exact Hperm|exact Hlen].
Defined.

(** [Simplex((1, "a"))] raises [TypeError]; without the tree it is built,
    and its [faces] raise. *)
Lemma faces_unorderable_witness :
  (Simplex.init (value:=()) mixed_lt [inl 1%Z; inr "a"] None true ∅ 0).1
  = Raise TypeError
  ∧ ∃ s : Simplex.t (node:=Z + string) (value:=()),
      Simplex.init mixed_lt [inl 1%Z; inr "a"] None false ∅ 0 = (Ret s, 1)
      ∧ (Simplex.faces mixed_lt s 1).1 = Raise TypeError
      ∧ (Simplex.boundary mixed_lt s 1).1 = Raise TypeError.
Proof.
  assert (NoDup [inl 1%Z; inr "a"]) as Hnd.
  { apply (bool_decide_unpack _). by vm_compute. }
  destruct (faces_unorderable (value:=()) mixed_lt [inl 1%Z; inr "a"]
              None ∅ 0 (inl 1%Z) (inr "a") Hnd)
    as (Htree & s & Hs & _ & Hfaces); try done.
  - left.
  - right. left.
  - split; [exact Htree|]. exists s. split; [exact Hs|]. exact (Hfaces 1).
Defined.

(** [[[1]] in Simplex((1, 2, 3))] raises [TypeError]. *)
Lemma contains_single_item_witness :
  ∃ s : Simplex.t (node:=Z) (value:=()),
    Simplex.init int_lt [1; 2; 3]%Z None false ∅ 0 = (Ret s, 1)
    ∧ Simplex.len s ≠ 0
    ∧ Simplex.contains (λ _, None) s (Simplex.Sized [Simplex.Unhashable])
      = Raise TypeError.
Proof.
  pose (s := Simplex.mk (node:=Z) (value:=()) 0 "" false
               (list_to_set [1; 2; 3]%Z) [] ∅).
  assert (Simplex.len s ≠ 0) as Hlen.
  { vm_compute. lia. }
  exists s. split; [vm_compute; reflexivity|]. split; [exact Hlen|].
  exact (proj2 (proj2 (contains_single_item (λ _, None) s Hlen))).
Defined.
